(** * Cyber attack simulator: the episode controller of [envs/environment.py]

    A shallow embedding of [CyberAttackSimulatorEnv] ([reset], [step],
    [_update_state], [_update_reachable], [_is_goal]) together with the
    collaborators it calls ([State], [Network], [Action]), followed by the
    properties of the controller.

    Python objects are mutable and handed around by reference.  The
    [State] objects therefore live in an object store indexed by
    references; the environment holds a reference to its current state and
    [step]/[reset] return references.  Python exceptions ([KeyError],
    [IndexError], failed [assert]) are the [None] of the [option] monad. *)

From Stdlib Require Import QArith.
From stdpp Require Import base option list gmap strings pretty.

Local Open Scope Q_scope.
Local Open Scope nat_scope.
Local Open Scope stdpp_scope.

(** An address is the pair [(subnet_id, host_id)]. *)
Abbreviation Address := (nat * nat)%type.

(** [class Service(Enum)]: what the agent believes about one service. *)
Module Service.
Inductive t : Set := unknown | present | absent.

#[global] Instance eq_dec : EqDecision t.
Proof. solve_decision. Defined.

(** [Service.present if services[s] else Service.absent] *)
Definition of_bool (b : bool) : t := if b then present else absent.
End Service.

(** ** Action *)
Module Action.
(** Modelled from the spec: the kind of an action, [Action(target, "scan")]
    or [Action(target, "exploit", service)] in the tests. *)
Inductive kind : Set :=
| scan
| exploit (service : nat).

(** Modelled from the spec: the [Action] class ([envs/action.py]) is not
    part of the sources at hand.  An action is an immutable value with a
    target address, a kind (an exploit carries its service index), a cost
    and, for exploits, a success probability. *)
Record t : Type := mk {
  target : Address;
  type : kind;
  cost : Q;
  prob : Q
}.

(** Modelled from the spec: [Action.is_scan()], whether the kind is scan. *)
Definition is_scan (a : t) : bool :=
  match type a with scan => true | exploit _ => false end.
End Action.

(** ** State: the agent's knowledge *)
Module State.
(** One entry [obs[m] = [compromised, reachable, service_info]]. *)
Record entry : Type := mk_entry {
  e_compromised : bool;
  e_reachable : bool;
  e_service_info : list Service.t
}.

(** Modelled from the spec: the [State] class ([envs/state.py]) is not
    part of the sources at hand.  It wraps the dictionary [obs] built by
    [reset], with the queries [compromised], [reachable],
    [service_state] and the mutators [set_compromised], [set_reachable],
    [update_service]; a query or an update at an address that is not a
    key, or at a service index outside the belief vector, raises. *)
Record t : Type := mk { obs : gmap Address entry }.

(** Modelled from the spec: the query [State.compromised(m)]. *)
Definition compromised (st : t) (m : Address) : option bool :=
  e_compromised <$> obs st !! m.

(** Modelled from the spec: the query [State.reachable(m)]. *)
Definition reachable (st : t) (m : Address) : option bool :=
  e_reachable <$> obs st !! m.

(** Modelled from the spec: the query [State.service_state(m, s)]. *)
Definition service_state (st : t) (m : Address) (s : nat) : option Service.t :=
  e ← obs st !! m; e_service_info e !! s.

(** Modelled from the spec: the mutator [State.set_compromised(m)] sets
    the flag; setting a flag that is set changes nothing. *)
Definition set_compromised (st : t) (m : Address) : option t :=
  e ← obs st !! m;
  Some (mk (<[m := mk_entry true (e_reachable e) (e_service_info e)]> (obs st))).

(** Modelled from the spec: the mutator [State.set_reachable(m)] sets the
    flag; setting a flag that is set changes nothing. *)
Definition set_reachable (st : t) (m : Address) : option t :=
  e ← obs st !! m;
  Some (mk (<[m := mk_entry (e_compromised e) true (e_service_info e)]> (obs st))).

(** Modelled from the spec: the mutator [State.update_service(m, s, v)]
    overwrites the belief about service [s] of [m]. *)
Definition update_service (st : t) (m : Address) (s : nat) (v : Service.t)
  : option t :=
  e ← obs st !! m;
  if decide (s < length (e_service_info e)) then
    Some (mk (<[m := mk_entry (e_compromised e) (e_reachable e)
                              (<[s := v]> (e_service_info e))]> (obs st)))
  else None.
End State.

(** ** Network: the ground truth *)
Module Network.
(** Modelled from the spec: the [Network] class ([envs/network.py]) and
    its machines are not part of the sources at hand.  A machine has an
    address, a vector of booleans (one per service, true where the
    machine is vulnerable) and a reward value. *)
Record machine : Type := mk_machine {
  m_address : Address;
  m_services : list bool;
  m_value : Q
}.

(** Modelled from the spec: a subnet has a machine count and an exposure
    flag. *)
Record subnet : Type := mk_subnet {
  s_size : nat;
  s_exposed : bool
}.

(** Modelled from the spec: the network owns its subnets (indexed by
    subnet id), the adjacency matrix of the topology and its machines (in
    the order of the address space). *)
Record t : Type := mk {
  subnets : list subnet;
  topology : list (list bool);
  machines : list machine
}.

(** Modelled from the spec: [Network.get_address_space()], the ordered
    sequence of all addresses. *)
Definition get_address_space (n : t) : list Address :=
  m_address <$> machines n.

(** Modelled from the spec: the machine at an address, [machines[a]]. *)
Definition find_machine (n : t) (a : Address) : option machine :=
  List.find (fun m => bool_decide (m_address m = a)) (machines n).

(** Modelled from the spec: [Network.subnet_exposed(s)], the exposure flag
    of subnet [s]; an out-of-range subnet id is a contract violation. *)
Definition subnet_exposed (n : t) (s : nat) : option bool :=
  s_exposed <$> subnets n !! s.

(** Modelled from the spec: [Network.subnets_connected(s1, s2)], the entry
    of the adjacency matrix; an out-of-range subnet id is a contract
    violation. *)
Definition subnets_connected (n : t) (s1 s2 : nat) : option bool :=
  row ← topology n !! s1; row !! s2.

(** Modelled from the spec: a machine carries a nonzero reward. *)
Definition rewarded (m : machine) : bool := negb (Qeq_bool (m_value m) 0).

(** Modelled from the spec: [Network.get_sensitive_machines()], the goal
    addresses, are the addresses of the machines with a nonzero reward. *)
Definition get_sensitive_machines (n : t) : list Address :=
  m_address <$> filter (fun m => rewarded m) (machines n).

(** Modelled from the spec: a Bernoulli draw with probability [p], from
    a sample [u] of the unit interval [0 <= u < 1]; with [p = 1] the
    draw always succeeds. *)
Definition bernoulli (p u : Q) : bool := negb (Qle_bool p u).

(** Modelled from the spec (section 4.3): resolution of an action.  The
    result is [(success, value, services)]: a scan succeeds with value 0
    and the service vector; an exploit of a vulnerable service succeeds
    when the draw does, with the machine's value and the service vector;
    any other exploit fails with value 0 and no services (as [test_scan],
    [test_successful_exploit] and [test_unsuccessful_exploit] of
    [test_network.py] expect).  A target in a subnet that does not exist,
    a target that is no machine of the network and a service index outside
    the service vector are contract violations ([test_invalid_action]). *)
Definition perform_action (n : t) (a : Action.t) (u : Q)
  : option (bool * Q * list bool) :=
  _ ← subnets n !! (Action.target a).1;
  m ← find_machine n (Action.target a);
  match Action.type a with
  | Action.scan => Some (true, 0%Q, m_services m)
  | Action.exploit s =>
      vulnerable ← m_services m !! s;
      if (vulnerable : bool) then
        if bernoulli (Action.prob a) u
        then Some (true, m_value m, m_services m)
        else Some (false, 0%Q, [])
      else Some (false, 0%Q, [])
  end.
End Network.

(** ** The environment *)

(** References to [State] objects in the object store. *)
Abbreviation ref := nat.

(** The fields of [CyberAttackSimulatorEnv] that [reset] and [step] use,
    and the store of the [State] objects created so far.  The network and
    the address space are fixed at construction. *)
Record Env : Type := mkEnv {
  num_services : nat;
  network : Network.t;
  address_space : list Address;
  reset_count : nat;
  current_state : ref;
  heap : gmap ref State.t
}.

(** The object [self.current_state] refers to. *)
Definition get_state (env : Env) : option State.t :=
  heap env !! current_state env.

(** In-place mutation of the object [self.current_state] refers to. *)
Definition put_state (env : Env) (st : State.t) : Env :=
  mkEnv (num_services env) (network env) (address_space env) (reset_count env)
        (current_state env) (<[current_state env := st]> (heap env)).

(** A new object holding [st], at a reference not in use. *)
Definition alloc (st : State.t) (h : gmap ref State.t) : ref * gmap ref State.t :=
  let r := fresh (dom h) in (r, <[r := st]> h).

(** Modelled from the spec: [State.copy()] returns a new object that shares
    nothing with the original. *)
Definition copy (env : Env) (st : State.t) : ref * Env :=
  let '(r, h) := alloc st (heap env) in
  (r, mkEnv (num_services env) (network env) (address_space env)
            (reset_count env) (current_state env) h).

Arguments copy : simpl never.
Arguments put_state : simpl never.

(** The loop of [reset] over the address space, filling [obs]. *)
Fixpoint reset_loop (net : Network.t) (n_services : nat) (ms : list Address)
    (obs : gmap Address State.entry) : option (gmap Address State.entry) :=
  match ms with
  | [] => Some obs
  | m :: ms' =>
      let service_info := replicate n_services Service.unknown in
      let compromised := false in
      exposed ← Network.subnet_exposed net m.1;
      let reachable := if (exposed : bool) then true else false in
      reset_loop net n_services ms'
        (<[m := State.mk_entry compromised reachable service_info]> obs)
  end.

Definition reset (env : Env) : option (Env * ref) :=
  obs ← reset_loop (network env) (num_services env) (address_space env) ∅;
  let '(r, h) := alloc (State.mk obs) (heap env) in
  let env' := mkEnv (num_services env) (network env) (address_space env)
                    (reset_count env + 1) r h in
  let '(o, env'') := copy env' (State.mk obs) in
  Some (env'', o).

(** The loop of [_update_reachable] over the address space. *)
Fixpoint update_reachable_loop (net : Network.t) (comp_subnet : nat)
    (ms : list Address) (st : State.t) : option State.t :=
  match ms with
  | [] => Some st
  | m :: ms' =>
      r ← State.reachable st m;
      if (r : bool) then update_reachable_loop net comp_subnet ms' st
      else
        let m_subnet := m.1 in
        c ← Network.subnets_connected net comp_subnet m_subnet;
        if (c : bool) then
          st' ← State.set_reachable st m;
          update_reachable_loop net comp_subnet ms' st'
        else update_reachable_loop net comp_subnet ms' st
  end.

(** The methods below act on the object [self.current_state] refers to:
    they take its content and return the content after their mutations. *)
Definition _update_reachable (env : Env) (compromised_m : Address)
    (st : State.t) : option State.t :=
  let comp_subnet := compromised_m.1 in
  update_reachable_loop (network env) comp_subnet (address_space env) st.

(** [for s in range(len(services))], from index [s] on. *)
Fixpoint update_services_loop (target : Address) (services : list bool)
    (s : nat) (st : State.t) : option State.t :=
  match services with
  | [] => Some st
  | b :: services' =>
      let new_state := Service.of_bool b in
      st' ← State.update_service st target s new_state;
      update_services_loop target services' (S s) st'
  end.

Definition _update_state (env : Env) (action : Action.t) (success : bool)
    (services : list bool) (st : State.t) : option State.t :=
  let target := Action.target action in
  if Action.is_scan action || (negb (Action.is_scan action) && success) then
    st1 ← update_services_loop target services 0 st;
    if negb (Action.is_scan action) then
      st2 ← State.set_compromised st1 target;
      _update_reachable env target st2
    else Some st1
  else
    match Action.type action with
    | Action.exploit service =>
        State.update_service st target service Service.absent
    | Action.scan => Some st
    end.

(** The loop of [_is_goal], with its early [return False]. *)
Fixpoint is_goal_loop (sensitive : list Address) (st : State.t) : option bool :=
  match sensitive with
  | [] => Some true
  | sensitive_m :: rest =>
      c ← State.compromised st sensitive_m;
      if (c : bool) then is_goal_loop rest st else Some false
  end.

Definition _is_goal (env : Env) (st : State.t) : option bool :=
  is_goal_loop (Network.get_sensitive_machines (network env)) st.

(** [step] takes the action and the sample [u] the random source yields for
    it; the result is the new environment and [(obs, reward, done)]. *)
Definition step (env : Env) (action : Action.t) (u : Q)
    : option (Env * (ref * Q * bool)) :=
  st ← get_state env;
  r ← State.reachable st (Action.target action);
  if negb r then
    Some (env, (current_state env, (0 - Action.cost action)%Q, false))
  else
    '(success, value, services) ← Network.perform_action (network env) action u;
    c ← State.compromised st (Action.target action);
    let value := if (c : bool) then 0%Q else value in
    st' ← _update_state env action success services st;
    let env' := put_state env st' in
    done ← _is_goal env' st';
    let reward := (value - Action.cost action)%Q in
    let '(obs, env'') := copy env' st' in
    Some (env'', (obs, reward, done)).

(** A sequence of [step] calls; the results are collected in order. *)
Fixpoint run (env : Env) (actions : list (Action.t * Q))
    : option (Env * list (ref * Q * bool)) :=
  match actions with
  | [] => Some (env, [])
  | (a, u) :: rest =>
      '(env', out) ← step env a u;
      '(env'', outs) ← run env' rest;
      Some (env'', out :: outs)
  end.

(** [__init__]: the fields are set from the network that was built, then
    [reset] is called. *)
Definition init (n_services : nat) (net : Network.t) : option Env :=
  fst <$> reset (mkEnv n_services net (Network.get_address_space net) 0 0 ∅).

(** What a holder of the reference [o] reads. *)
Definition read (env : Env) (o : ref) : option State.t := heap env !! o.

(** *** A small network: three subnets of one machine, one service *)
Module Example3.
Definition net : Network.t :=
  Network.mk
    [Network.mk_subnet 1 true; Network.mk_subnet 1 false; Network.mk_subnet 1 false]
    [[true; true; true]; [true; true; true]; [true; true; true]]
    [Network.mk_machine (0, 0) [true] 0;
     Network.mk_machine (1, 0) [true] 1000;
     Network.mk_machine (2, 0) [true] 1000].

Definition scan (m : Address) : Action.t := Action.mk m Action.scan 1 1.
Definition exploit (m : Address) (s : nat) (p : Q) : Action.t :=
  Action.mk m (Action.exploit s) 1 p.
End Example3.

(** ** Orders and well-formedness used by the proofs *)

(** [st'] has the keys of [st]; flags that were set are still set and the
    belief vectors have kept their length. *)
Definition entry_le (e e' : State.entry) : Prop :=
  (State.e_compromised e = true → State.e_compromised e' = true) ∧
  (State.e_reachable e = true → State.e_reachable e' = true) ∧
  length (State.e_service_info e) = length (State.e_service_info e').

Definition state_le (st st' : State.t) : Prop :=
  ∀ m, match State.obs st !! m, State.obs st' !! m with
       | Some e, Some e' => entry_le e e'
       | None, None => True
       | _, _ => False
       end.

(** The action is within the contract of [perform_action]: its target is a
    machine of the network, in a subnet that exists, and the service index
    of an exploit is within the machine's service vector. *)
Definition valid_action (n : Network.t) (a : Action.t) : Prop :=
  is_Some (Network.subnets n !! (Action.target a).1) ∧
  match Network.find_machine n (Action.target a) with
  | Some mach =>
      match Action.type a with
      | Action.scan => True
      | Action.exploit s => s < length (Network.m_services mach)
      end
  | None => False
  end.

(** The current state has an entry for every address of the address space
    and for every sensitive machine, its belief vectors are as long as the
    service vectors of the machines, and the topology covers the subnets of
    the address space. *)
Definition well_formed_state (env : Env) (st : State.t) : Prop :=
  Forall (fun m => is_Some (State.obs st !! m)) (address_space env) ∧
  Forall (fun g => is_Some (State.obs st !! g))
         (Network.get_sensitive_machines (network env)) ∧
  map_Forall (fun m e =>
      match Network.find_machine (network env) m with
      | Some mach =>
          length (State.e_service_info e) = length (Network.m_services mach)
      | None => True
      end) (State.obs st) ∧
  map_Forall (fun m1 _ => Forall (fun m2 =>
      is_Some (Network.subnets_connected (network env) m1.1 m2.1))
    (address_space env)) (State.obs st).

Definition well_formed (env : Env) : Prop :=
  match get_state env with
  | Some st => well_formed_state env st
  | None => False
  end.

#[global] Instance valid_action_dec n a : Decision (valid_action n a).
Proof.
  unfold valid_action.
  destruct (Network.find_machine n (Action.target a));
    [destruct (Action.type a)|]; apply _.
Defined.

#[global] Instance well_formed_state_dec env st : Decision (well_formed_state env st).
Proof.
  unfold well_formed_state.
  apply and_dec; [apply _|]. apply and_dec; [apply _|].
  apply and_dec; [|apply _].
  apply map_Forall_dec. intros m e.
  destruct (Network.find_machine (network env) m); apply _.
Defined.

#[global] Instance well_formed_dec env : Decision (well_formed env).
Proof. unfold well_formed. destruct (get_state env); apply _. Defined.

(** The environment of the small network after construction. *)
Definition env3 : Env :=
  default (mkEnv 1 Example3.net [] 0 0 ∅) (init 1 Example3.net).

(** Its current state: only [(0, 0)] is reachable, nothing is known. *)
Definition st3 : State.t := default (State.mk ∅) (get_state env3).

(** A deterministic exploit of service 0, and one that succeeds half of
    the time. *)
Definition exploit3 (m : Address) : Action.t := Example3.exploit m 0 1.
Definition exploit3_half (m : Address) : Action.t := Example3.exploit m 0 (1 # 2).

(** The three machines exploited in turn: a goal state. *)
Definition env3_goal : Env :=
  default env3
    (fst <$> run env3 [(exploit3 (0, 0), 0%Q); (exploit3 (1, 0), 0%Q);
                       (exploit3 (2, 0), 0%Q)]).
Definition st3_goal : State.t := default (State.mk ∅) (get_state env3_goal).

(** A network the environment can be built from: the machines are in
    subnets that exist, each has [n_services] services, and the topology
    covers the subnets of the machines. *)
Definition well_formed_network (n_services : nat) (n : Network.t) : Prop :=
  Forall (fun mach =>
      (Network.m_address mach).1 < length (Network.subnets n) ∧
      length (Network.m_services mach) = n_services ∧
      Forall (fun mach' =>
          is_Some (Network.subnets_connected n (Network.m_address mach).1
                                               (Network.m_address mach').1))
        (Network.machines n))
    (Network.machines n).

(** ** Invariants of an episode *)

(** A machine that is compromised is reachable. *)
Definition compromised_reachable (st : State.t) : Prop :=
  ∀ m, State.compromised st m = Some true → State.reachable st m = Some true.

(** An address of the address space is reachable exactly when its subnet
    is exposed or connected to the subnet of a compromised machine. *)
Definition reachable_explained (env : Env) (st : State.t) : Prop :=
  ∀ m, m ∈ address_space env →
    State.reachable st m = Some true ↔
    Network.subnet_exposed (network env) m.1 = Some true ∨
    ∃ c, State.compromised st c = Some true ∧
         Network.subnets_connected (network env) c.1 m.1 = Some true.

(** The belief about service [i] of [m] is present or absent. *)
Definition known (st : State.t) (m : Address) (i : nat) : Prop :=
  ∃ v, State.service_state st m i = Some v ∧ v ≠ Service.unknown.

(** Every belief [present] is true of the machine. *)
Definition present_sound (n : Network.t) (st : State.t) : Prop :=
  ∀ m i, State.service_state st m i = Some Service.present →
    ∃ mach, Network.find_machine n m = Some mach ∧
            Network.m_services mach !! i = Some true.

(** The keys of the state are the addresses of the address space, and every
    belief vector has [num_services] entries. *)
Definition observation_shape (env : Env) (st : State.t) : Prop :=
  ∀ m, match State.obs st !! m with
       | Some e => m ∈ address_space env ∧
                   length (State.e_service_info e) = num_services env
       | None => m ∉ address_space env
       end.

(** *** A network of four subnets, the last one behind subnet 2; only
    machine [(1, 0)] carries a reward *)
Module Example4.
Definition net : Network.t :=
  Network.mk
    [Network.mk_subnet 1 true; Network.mk_subnet 1 false;
     Network.mk_subnet 1 false; Network.mk_subnet 1 false]
    [[true; true; true; false]; [true; true; true; false];
     [true; true; true; true]; [false; false; true; true]]
    [Network.mk_machine (0, 0) [true; false] 0;
     Network.mk_machine (1, 0) [true; true] 1000;
     Network.mk_machine (2, 0) [false; true] 0;
     Network.mk_machine (3, 0) [true; true] 0].

Definition scan (m : Address) : Action.t := Action.mk m Action.scan 1 1.
Definition exploit (m : Address) (s : nat) : Action.t :=
  Action.mk m (Action.exploit s) 1 1.
End Example4.

(** The environment of that network after construction, and after the
    exploits of [(0, 0)] and [(1, 0)]: a goal state in which [(3, 0)] is
    not reachable. *)
Definition env4 : Env :=
  default (mkEnv 2 Example4.net [] 0 0 ∅) (init 2 Example4.net).
Definition st4 : State.t := default (State.mk ∅) (get_state env4).
Definition env4_goal : Env :=
  default env4
    (fst <$> run env4 [(Example4.exploit (0, 0) 0, 0%Q);
                       (Example4.exploit (1, 0) 0, 0%Q)]).
Definition st4_goal : State.t := default (State.mk ∅) (get_state env4_goal).

(** ** Rendering *)

(** [Service.value]: the numbers of the enumeration. *)
Definition Service_value (s : Service.t) : nat :=
  match s with
  | Service.unknown => 0
  | Service.present => 1
  | Service.absent => 2
  end.

(** [Service.__str__] *)
Definition Service_str (s : Service.t) : string :=
  if decide (Service_value s = 0) then "unknown"
  else if decide (Service_value s = 1) then "present"
  else "absent".

(** Modelled from the spec: [Network.is_sensitive_machine(m)], whether [m]
    is one of the sensitive (goal) addresses. *)
Definition is_sensitive_machine (n : Network.t) (m : Address) : bool :=
  bool_decide (m ∈ Network.get_sensitive_machines n).

(** [_get_machine_symbol], on the content [st] of the current state. *)
Definition _get_machine_symbol (env : Env) (st : State.t) (m : Address)
    : option string :=
  if is_sensitive_machine (network env) m then
    c ← State.compromised st m;
    if (c : bool) then Some "C"
    else
      r ← State.reachable st m;
      if (r : bool) then Some "R" else Some "S"
  else
    c ← State.compromised st m;
    if (c : bool) then Some "c"
    else
      r ← State.reachable st m;
      if (r : bool) then Some "r" else Some "o".

(** The characters ["\n"] and ["\t"], and [" " * n]. *)
Definition nl : string := String (Ascii.ascii_of_nat 10) EmptyString.
Definition tab : string := String (Ascii.ascii_of_nat 9) EmptyString.
Definition spaces (n : nat) : string := String.concat "" (replicate n " ").

(** The first loop of [_render_asci]:
    [subnets[m[0]].append(self._get_machine_symbol(m))]. *)
Fixpoint asci_rows_loop (env : Env) (st : State.t) (ms : list Address)
    (subnets : list (list string)) : option (list (list string)) :=
  match ms with
  | [] => Some subnets
  | m :: ms' =>
      row ← subnets !! m.1;
      symbol ← _get_machine_symbol env st m;
      asci_rows_loop env st ms' (<[m.1 := row ++ [symbol]]> subnets)
  end.

(** [max] and [min] of a list of numbers; both raise on the empty list. *)
Definition py_max (l : list nat) : option nat :=
  match l with
  | [] => None
  | x :: l' => Some (foldl Nat.max x l')
  end.

Definition py_min (l : list nat) : option nat :=
  match l with
  | [] => None
  | x :: l' => Some (foldl Nat.min x l')
  end.

(** The second loop of [_render_asci], [for i, row in enumerate(subnets)],
    from row [i] on; [n_rows] is [len(subnets)]. *)
Fixpoint asci_output_loop (rows : list (list string)) (i n_rows : nat)
    (max_row_size min_row_size : nat) (output : string) : string :=
  match rows with
  | [] => output
  | row :: rows' =>
      let output := output +:+ nl +:+ "subnet " +:+ pretty i +:+ ": " in
      let output := output +:+ spaces ((max_row_size - length row) / 2) in
      let output := foldl (fun out col => out +:+ col) output row in
      let output := output +:+ nl in
      let output :=
        if decide (i < n_rows - 1) then
          let n_spaces := (max_row_size - min_row_size) / 2 in
          output +:+ spaces (String.length "subnet X: " + n_spaces) +:+ "|"
        else output in
      asci_output_loop rows' (S i) n_rows max_row_size min_row_size output
  end.

(** [_render_asci]; the result is the text written to [sys.stdout]. *)
Definition _render_asci (env : Env) (st : State.t) : option string :=
  subnets ← asci_rows_loop env st (address_space env) [[]; []; []];
  max_row_size ← py_max (length <$> subnets);
  min_row_size ← py_min (length <$> subnets);
  let output := "-----------------------------" in
  let output :=
    asci_output_loop subnets 0 (length subnets) max_row_size min_row_size
                     output in
  Some (output +:+ "-----------------------------" +:+ nl +:+ nl).

(** [str] of an address and of a truth value. *)
Definition str_address (m : Address) : string :=
  "(" +:+ pretty m.1 +:+ ", " +:+ pretty m.2 +:+ ")".
Definition str_bool (b : bool) : string := if b then "True" else "False".

(** The inner loop of [_render_readable], over the service indices [ss]. *)
Fixpoint readable_services_loop (st : State.t) (m : Address) (ss : list nat)
    (output : string) : option string :=
  match ss with
  | [] => Some output
  | s :: ss' =>
      service_state ← State.service_state st m s;
      let output :=
        output +:+ tab +:+ tab +:+ pretty s +:+ " = "
               +:+ Service_str service_state in
      let output := output +:+ nl in
      readable_services_loop st m ss' output
  end.

(** The outer loop of [_render_readable]. *)
Fixpoint readable_loop (env : Env) (st : State.t) (ms : list Address)
    (output : string) : option string :=
  match ms with
  | [] => Some output
  | m :: ms' =>
      let output := output +:+ "Machine = " +:+ str_address m +:+ " =>" +:+ nl in
      let output := output +:+ tab +:+ "Services:" +:+ nl in
      output ← readable_services_loop st m (seq 0 (num_services env)) output;
      r ← State.reachable st m;
      let output := output +:+ tab +:+ "reachable: " +:+ str_bool r +:+ nl in
      c ← State.compromised st m;
      let output := output +:+ tab +:+ "compromised: " +:+ str_bool c +:+ nl in
      let output :=
        output +:+ tab +:+ "sensitive: "
               +:+ str_bool (is_sensitive_machine (network env) m) +:+ nl in
      readable_loop env st ms' output
  end.

(** [_render_readable]; the result is the text written to [sys.stdout]. *)
Definition _render_readable (env : Env) (st : State.t) : option string :=
  readable_loop env st (address_space env) "".

(** ** The oracle of the tests *)

(** [EnvironmentTestCase.update_obs] of [test_environment.py], with the
    fields [E], [network] and [ads_space] of the test case. *)
Module EnvironmentTestCase.
(** [for s in range(self.E): obs.update_service(target, s, Service.present)] *)
Fixpoint update_present_loop (target : Address) (ss : list nat)
    (obs : State.t) : option State.t :=
  match ss with
  | [] => Some obs
  | s :: ss' =>
      obs' ← State.update_service obs target s Service.present;
      update_present_loop target ss' obs'
  end.

(** The loop over [self.ads_space] after [obs.set_compromised(target)]. *)
Fixpoint reachable_loop (network : Network.t) (target : Address)
    (ms : list Address) (obs : State.t) : option State.t :=
  match ms with
  | [] => Some obs
  | m :: ms' =>
      r ← State.reachable obs m;
      if (r : bool) then reachable_loop network target ms' obs
      else
        c ← Network.subnets_connected network target.1 m.1;
        if (c : bool) then
          obs' ← State.set_reachable obs m;
          reachable_loop network target ms' obs'
        else reachable_loop network target ms' obs
  end.

Definition update_obs (E : nat) (network : Network.t) (ads_space : list Address)
    (action : Action.t) (obs : State.t) (success : bool) : option State.t :=
  let target := Action.target action in
  obs1 ← (if success then update_present_loop target (seq 0 E) obs
          else Some obs);
  if negb (Action.is_scan action) && success then
    obs2 ← State.set_compromised obs1 target;
    reachable_loop network target ads_space obs2
  else if negb (Action.is_scan action) && negb success then
    match Action.type action with
    | Action.exploit service =>
        State.update_service obs1 target service Service.absent
    | Action.scan => Some obs1
    end
  else Some obs1.
End EnvironmentTestCase.

(** ** Accounting of rewards *)





(** ** Concrete runs of the small networks *)

(** The environment a sequence of steps leads to, and the content of the
    current state of an environment. *)
Definition after (env : Env) (acts : list (Action.t * Q)) : Env :=
  default env (fst <$> run env acts).
Definition state_of (env : Env) : State.t :=
  default (State.mk ∅) (get_state env).

(** The small network's environment before the [reset] of its
    construction, and the exploits of its three machines in turn. *)
Definition env3_pre : Env :=
  mkEnv 1 Example3.net (Network.get_address_space Example3.net) 0 0 ∅.
Definition acts3 : list (Action.t * Q) :=
  [(exploit3 (0, 0), 0%Q); (exploit3 (1, 0), 0%Q); (exploit3 (2, 0), 0%Q)].

(** * Properties *)

(** ** The mutators of [State] *)
Section StateFacts.
Implicit Types (st : State.t) (m : Address) (e : State.entry).

Lemma entry_le_refl e : entry_le e e.
Proof. by repeat split. Qed.

Lemma entry_le_trans e1 e2 e3 : entry_le e1 e2 → entry_le e2 e3 → entry_le e1 e3.
Proof. intros (?&?&?) (?&?&?). repeat split; [auto..|congruence]. Qed.

Lemma state_le_refl st : state_le st st.
Proof. intros m. destruct (State.obs st !! m); [apply entry_le_refl|done]. Qed.

Lemma state_le_trans st1 st2 st3 :
  state_le st1 st2 → state_le st2 st3 → state_le st1 st3.
Proof.
  intros H12 H23 m. specialize (H12 m). specialize (H23 m).
  destruct (State.obs st1 !! m), (State.obs st2 !! m), (State.obs st3 !! m);
    try done. by eapply entry_le_trans.
Qed.

Lemma state_le_insert st m e e' :
  State.obs st !! m = Some e → entry_le e e' →
  state_le st (State.mk (<[m := e']> (State.obs st))).
Proof.
  intros Hm Hle m'. simpl. destruct (decide (m = m')) as [<-|Hne].
  - by rewrite Hm, lookup_insert_eq.
  - rewrite lookup_insert_ne by done.
    destruct (State.obs st !! m'); [apply entry_le_refl|done].
Qed.

Lemma set_compromised_le st m st' :
  State.set_compromised st m = Some st' → state_le st st'.
Proof.
  unfold State.set_compromised. intros H.
  destruct (State.obs st !! m) as [e|] eqn:Hm; simplify_eq/=.
  eapply state_le_insert; [done|]. by repeat split.
Qed.

Lemma set_reachable_le st m st' :
  State.set_reachable st m = Some st' → state_le st st'.
Proof.
  unfold State.set_reachable. intros H.
  destruct (State.obs st !! m) as [e|] eqn:Hm; simplify_eq/=.
  eapply state_le_insert; [done|]. by repeat split.
Qed.

Lemma update_service_le st m s v st' :
  State.update_service st m s v = Some st' → state_le st st'.
Proof.
  unfold State.update_service. intros H.
  destruct (State.obs st !! m) as [e|] eqn:Hm; simplify_eq/=.
  case_decide; simplify_eq.
  eapply state_le_insert; [done|]. repeat split; simpl; auto.
  by rewrite length_insert.
Qed.

Lemma state_le_compromised st st' m :
  state_le st st' → State.compromised st m = Some true →
  State.compromised st' m = Some true.
Proof.
  intros Hle. specialize (Hle m). unfold State.compromised.
  destruct (State.obs st !! m) as [e|], (State.obs st' !! m) as [e'|];
    try done; simpl.
  destruct Hle as (Hc&_&_). intros [= Hx]. by rewrite Hc.
Qed.

Lemma state_le_reachable st st' m :
  state_le st st' → State.reachable st m = Some true →
  State.reachable st' m = Some true.
Proof.
  intros Hle. specialize (Hle m). unfold State.reachable.
  destruct (State.obs st !! m) as [e|], (State.obs st' !! m) as [e'|];
    try done; simpl.
  destruct Hle as (_&Hr&_). intros [= Hx]. by rewrite Hr.
Qed.

Lemma state_le_is_Some st st' m :
  state_le st st' → is_Some (State.obs st !! m) → is_Some (State.obs st' !! m).
Proof.
  intros Hle [e He]. specialize (Hle m). rewrite He in Hle.
  destruct (State.obs st' !! m); [eauto|done].
Qed.
End StateFacts.

(** ** The loops of the controller *)
Section Loops.
Implicit Types (st : State.t) (m : Address) (e : State.entry).

Lemma update_service_reachable st m s v st' m' :
  State.update_service st m s v = Some st' →
  State.reachable st' m' = State.reachable st m'.
Proof.
  unfold State.update_service, State.reachable. intros H.
  destruct (State.obs st !! m) as [e|] eqn:Hm; simplify_eq/=.
  case_decide; simplify_eq/=.
  destruct (decide (m = m')) as [<-|Hne].
  - by rewrite lookup_insert_eq, Hm.
  - by rewrite lookup_insert_ne.
Qed.

Lemma update_service_compromised st m s v st' m' :
  State.update_service st m s v = Some st' →
  State.compromised st' m' = State.compromised st m'.
Proof.
  unfold State.update_service, State.compromised. intros H.
  destruct (State.obs st !! m) as [e|] eqn:Hm; simplify_eq/=.
  case_decide; simplify_eq/=.
  destruct (decide (m = m')) as [<-|Hne].
  - by rewrite lookup_insert_eq, Hm.
  - by rewrite lookup_insert_ne.
Qed.

Lemma set_compromised_reachable st m st' m' :
  State.set_compromised st m = Some st' →
  State.reachable st' m' = State.reachable st m'.
Proof.
  unfold State.set_compromised, State.reachable. intros H.
  destruct (State.obs st !! m) as [e|] eqn:Hm; simplify_eq/=.
  destruct (decide (m = m')) as [<-|Hne].
  - by rewrite lookup_insert_eq, Hm.
  - by rewrite lookup_insert_ne.
Qed.

Lemma set_compromised_eq st m st' :
  State.set_compromised st m = Some st' →
  State.compromised st' m = Some true.
Proof.
  unfold State.set_compromised, State.compromised. intros H.
  destruct (State.obs st !! m) as [e|] eqn:Hm; simplify_eq/=.
  by rewrite lookup_insert_eq.
Qed.

Lemma set_reachable_eq st m st' :
  State.set_reachable st m = Some st' → State.reachable st' m = Some true.
Proof.
  unfold State.set_reachable, State.reachable. intros H.
  destruct (State.obs st !! m) as [e|] eqn:Hm; simplify_eq/=.
  by rewrite lookup_insert_eq.
Qed.

Lemma set_reachable_ne st m st' m' :
  State.set_reachable st m = Some st' → m ≠ m' →
  State.reachable st' m' = State.reachable st m'.
Proof.
  unfold State.set_reachable, State.reachable. intros H Hne.
  destruct (State.obs st !! m) as [e|] eqn:Hm; simplify_eq/=.
  by rewrite lookup_insert_ne.
Qed.

(** *** [for s in range(len(services))] *)

Lemma update_services_loop_le target services : ∀ s st st',
  update_services_loop target services s st = Some st' → state_le st st'.
Proof.
  induction services as [|b services IH]; intros s st st' H; simplify_eq/=.
  - apply state_le_refl.
  - destruct (State.update_service st target s _) as [st1|] eqn:H1;
      simplify_eq/=.
    eapply state_le_trans; [by eapply update_service_le|by eapply IH].
Qed.

Lemma update_services_loop_reachable target services m : ∀ s st st',
  update_services_loop target services s st = Some st' →
  State.reachable st' m = State.reachable st m.
Proof.
  induction services as [|b services IH]; intros s st st' H; simplify_eq/=.
  - done.
  - destruct (State.update_service st target s _) as [st1|] eqn:H1;
      simplify_eq/=.
    erewrite IH by done. by eapply update_service_reachable.
Qed.

Lemma update_services_loop_compromised target services m : ∀ s st st',
  update_services_loop target services s st = Some st' →
  State.compromised st' m = State.compromised st m.
Proof.
  induction services as [|b services IH]; intros s st st' H; simplify_eq/=.
  - done.
  - destruct (State.update_service st target s _) as [st1|] eqn:H1;
      simplify_eq/=.
    erewrite IH by done. by eapply update_service_compromised.
Qed.

(** The loop overwrites the beliefs [s .. s + len(services) - 1] of the
    target and nothing else; it raises only if the target is no key or
    the belief vector is too short. *)
Lemma update_services_loop_spec target services : ∀ s st e,
  State.obs st !! target = Some e →
  s + length services ≤ length (State.e_service_info e) →
  update_services_loop target services s st =
    Some (State.mk (<[target :=
      State.mk_entry (State.e_compromised e) (State.e_reachable e)
        (take s (State.e_service_info e) ++ (Service.of_bool <$> services) ++
         drop (s + length services) (State.e_service_info e))]> (State.obs st))).
Proof.
  induction services as [|b services IH]; intros s st e He Hlen; simpl in *.
  - rewrite Nat.add_0_r, take_drop. destruct st as [o], e. simpl in *.
    by rewrite insert_id.
  - unfold State.update_service at 1. rewrite He. simpl.
    rewrite decide_True by lia. simpl.
    erewrite IH;
      [|simpl; apply lookup_insert_eq|simpl; rewrite length_insert; lia].
    simpl. rewrite insert_insert_eq. do 4 f_equal.
    rewrite (take_S_r _ _ (Service.of_bool b))
      by (apply list_lookup_insert_eq; lia).
    rewrite take_insert_ge by lia.
    rewrite drop_insert_lt by lia.
    replace (s + S (length services)) with (S s + length services) by lia.
    by rewrite <-app_assoc.
Qed.

(** *** [_update_reachable] *)

Lemma update_reachable_loop_le net cs ms : ∀ st st',
  update_reachable_loop net cs ms st = Some st' → state_le st st'.
Proof.
  induction ms as [|m ms IH]; intros st st' H; simplify_eq/=.
  - apply state_le_refl.
  - destruct (State.reachable st m) as [[]|]; simplify_eq/=; [by eapply IH|].
    destruct (Network.subnets_connected net cs m.1) as [[]|]; simplify_eq/=;
      [|by eapply IH].
    destruct (State.set_reachable st m) as [st1|] eqn:H1; simplify_eq/=.
    eapply state_le_trans; [by eapply set_reachable_le|by eapply IH].
Qed.

(** Addresses of the loop whose subnet is connected end up reachable. *)
Lemma update_reachable_loop_connected net cs ms m : ∀ st st',
  update_reachable_loop net cs ms st = Some st' →
  m ∈ ms → Network.subnets_connected net cs m.1 = Some true →
  State.reachable st' m = Some true.
Proof.
  induction ms as [|m0 ms IH]; intros st st' H Hin Hc.
  { by apply elem_of_nil in Hin. }
  simpl in H.
  destruct (State.reachable st m0) as [[]|] eqn:Hr; simplify_eq/=.
  - apply elem_of_cons in Hin as [->|Hin]; [|by eapply IH].
    eapply state_le_reachable; [by eapply update_reachable_loop_le|done].
  - destruct (Network.subnets_connected net cs m0.1) as [[]|] eqn:Hc0;
      simplify_eq/=.
    + destruct (State.set_reachable st m0) as [st1|] eqn:H1; simplify_eq/=.
      apply elem_of_cons in Hin as [->|Hin]; [|by eapply IH].
      eapply state_le_reachable; [by eapply update_reachable_loop_le|].
      by eapply set_reachable_eq.
    + apply elem_of_cons in Hin as [->|Hin]; [congruence|by eapply IH].
Qed.

(** Addresses whose subnet is not connected keep their flag. *)
Lemma update_reachable_loop_other net cs ms m : ∀ st st',
  update_reachable_loop net cs ms st = Some st' →
  Network.subnets_connected net cs m.1 ≠ Some true →
  State.reachable st' m = State.reachable st m.
Proof.
  induction ms as [|m0 ms IH]; intros st st' H Hc; simplify_eq/=; [done|].
  destruct (State.reachable st m0) as [[]|] eqn:Hr; simplify_eq/=;
    [by eapply IH|].
  destruct (Network.subnets_connected net cs m0.1) as [[]|] eqn:Hc0;
    simplify_eq/=; [|by eapply IH].
  destruct (State.set_reachable st m0) as [st1|] eqn:H1; simplify_eq/=.
  erewrite IH by done. eapply set_reachable_ne; [done|]. congruence.
Qed.

Lemma set_reachable_compromised st m st' m' :
  State.set_reachable st m = Some st' →
  State.compromised st' m' = State.compromised st m'.
Proof.
  unfold State.set_reachable, State.compromised. intros H.
  destruct (State.obs st !! m) as [e|] eqn:Hm; simplify_eq/=.
  destruct (decide (m = m')) as [<-|Hne].
  - by rewrite lookup_insert_eq, Hm.
  - by rewrite lookup_insert_ne.
Qed.

Lemma update_reachable_loop_compromised net cs ms m : ∀ st st',
  update_reachable_loop net cs ms st = Some st' →
  State.compromised st' m = State.compromised st m.
Proof.
  induction ms as [|m0 ms IH]; intros st st' H; simplify_eq/=; [done|].
  destruct (State.reachable st m0) as [[]|] eqn:Hr; simplify_eq/=;
    [by eapply IH|].
  destruct (Network.subnets_connected net cs m0.1) as [[]|] eqn:Hc0;
    simplify_eq/=; [|by eapply IH].
  destruct (State.set_reachable st m0) as [st1|] eqn:H1; simplify_eq/=.
  erewrite IH by done. by eapply set_reachable_compromised.
Qed.
End Loops.

(** ** [_is_goal] and [_update_state] *)
Section Controller.
Implicit Types (st : State.t) (m : Address) (env : Env) (a : Action.t).

Lemma is_goal_loop_spec l st d :
  is_goal_loop l st = Some d →
  d = true ↔ ∀ g, g ∈ l → State.compromised st g = Some true.
Proof.
  revert d. induction l as [|g0 l IH]; intros d H; simplify_eq/=.
  - split; [|done]. intros _ g Hg. by apply elem_of_nil in Hg.
  - destruct (State.compromised st g0) as [[]|] eqn:Hc; simplify_eq/=.
    + rewrite (IH _ H). split.
      * intros Hall g [->|Hg]%elem_of_cons; auto.
      * intros Hall g Hg. apply Hall. by apply elem_of_cons; right.
    + split; [done|]. intros Hall.
      specialize (Hall g0 (list_elem_of_here _ _)). congruence.
Qed.

Lemma is_goal_loop_ext l st st' :
  (∀ m, State.compromised st' m = State.compromised st m) →
  is_goal_loop l st' = is_goal_loop l st.
Proof.
  intros Heq. induction l as [|g0 l IH]; simpl; [done|].
  by rewrite Heq, IH.
Qed.

Lemma is_goal_loop_total l st :
  (∀ g, g ∈ l → is_Some (State.obs st !! g)) → is_Some (is_goal_loop l st).
Proof.
  induction l as [|g0 l IH]; intros Hall; simpl; [by eexists|].
  destruct (Hall g0 (list_elem_of_here _ _)) as [e He].
  unfold State.compromised. rewrite He. simpl.
  destruct (State.e_compromised e); [|by eexists].
  apply IH. intros g Hg. apply Hall. by apply elem_of_cons; right.
Qed.

Lemma is_goal_loop_mono l st st' :
  state_le st st' → is_goal_loop l st = Some true →
  is_goal_loop l st' = Some true.
Proof.
  intros Hle. induction l as [|g0 l IH]; intros H; simplify_eq/=; [done|].
  destruct (State.compromised st g0) as [[]|] eqn:Hc; simplify_eq/=.
  rewrite (state_le_compromised _ _ _ Hle Hc). simpl. auto.
Qed.

(** A scan overwrites the beliefs of the target from the revealed vector. *)
Lemma _update_state_scan env a success services st :
  Action.is_scan a = true →
  _update_state env a success services st =
    update_services_loop (Action.target a) services 0 st.
Proof.
  unfold _update_state. intros ->. simpl.
  by destruct (update_services_loop _ _ _ _).
Qed.

(** An unsuccessful exploit marks the attacked service absent. *)
Lemma _update_state_failed env a s services st :
  Action.type a = Action.exploit s →
  _update_state env a false services st =
    State.update_service st (Action.target a) s Service.absent.
Proof. unfold _update_state, Action.is_scan. by intros ->. Qed.

(** A successful exploit: beliefs, then the compromised flag, then
    reachability. *)
Lemma _update_state_exploited env a s services st :
  Action.type a = Action.exploit s →
  _update_state env a true services st =
    st1 ← update_services_loop (Action.target a) services 0 st;
    st2 ← State.set_compromised st1 (Action.target a);
    _update_reachable env (Action.target a) st2.
Proof. unfold _update_state, Action.is_scan. by intros ->. Qed.

Lemma _update_state_le env a success services st st' :
  _update_state env a success services st = Some st' → state_le st st'.
Proof.
  destruct (Action.type a) as [|s] eqn:Ha.
  - rewrite _update_state_scan by (unfold Action.is_scan; by rewrite Ha).
    apply update_services_loop_le.
  - destruct success.
    + rewrite (_update_state_exploited _ _ s) by done. intros H.
      destruct (update_services_loop _ _ _ _) as [st1|] eqn:H1; simplify_eq/=.
      destruct (State.set_compromised st1 _) as [st2|] eqn:H2; simplify_eq/=.
      eapply state_le_trans; [by eapply update_services_loop_le|].
      eapply state_le_trans; [by eapply set_compromised_le|].
      by eapply update_reachable_loop_le.
    + rewrite (_update_state_failed _ _ s) by done.
      apply update_service_le.
Qed.

(** ** The object store *)

Lemma alloc_fresh st (h : gmap ref State.t) : h !! (alloc st h).1 = None.
Proof. simpl. apply not_elem_of_dom, is_fresh. Qed.

Lemma get_put_state env st : get_state (put_state env st) = Some st.
Proof. unfold get_state, put_state. simpl. apply lookup_insert_eq. Qed.

(** [copy] creates a new object and leaves the others as they are. *)
Lemma copy_spec env st o env' :
  copy env st = (o, env') →
  heap env !! o = None ∧ read env' o = Some st ∧
  (∀ r, r ≠ o → heap env' !! r = heap env !! r) ∧
  num_services env' = num_services env ∧ network env' = network env ∧
  address_space env' = address_space env ∧
  reset_count env' = reset_count env ∧
  current_state env' = current_state env.
Proof.
  unfold copy, alloc, read. intros [= <- <-]. simpl.
  split_and!; try done.
  - apply not_elem_of_dom, is_fresh.
  - apply lookup_insert_eq.
  - intros r Hr. by rewrite lookup_insert_ne.
Qed.

Lemma copy_get_state env st st0 o env' :
  copy env st = (o, env') → get_state env = Some st0 →
  get_state env' = Some st0 ∧ o ≠ current_state env'.
Proof.
  intros Hc Hg. destruct (copy_spec _ _ _ _ Hc) as (Hn&_&Hr&_&_&_&_&Hcur).
  unfold get_state in *. rewrite Hcur.
  assert (o ≠ current_state env) by (intros ->; congruence).
  split; [|done]. rewrite Hr by done. done.
Qed.
End Controller.

(** ** One [step] *)
Section Step.
Implicit Types (st : State.t) (m : Address) (env : Env) (a : Action.t).

(** The gate: the target is not reachable. *)
Lemma step_not_reachable env a u st :
  get_state env = Some st →
  State.reachable st (Action.target a) = Some false →
  step env a u =
    Some (env, (current_state env, (0 - Action.cost a)%Q, false)).
Proof. unfold step. intros -> Hr. simpl. by rewrite Hr. Qed.

(** Past the gate: resolution, update, goal check, snapshot. *)
Lemma step_reachable env a u st :
  get_state env = Some st →
  State.reachable st (Action.target a) = Some true →
  step env a u =
    '(success, value, services) ← Network.perform_action (network env) a u;
    c ← State.compromised st (Action.target a);
    st' ← _update_state env a success services st;
    done ← _is_goal env st';
    let '(obs, env') := copy (put_state env st') st' in
    Some (env', (obs, ((if (c : bool) then 0 else value) - Action.cost a)%Q, done)).
Proof.
  unfold step. intros -> Hr. simpl. rewrite Hr. simpl.
  destruct (Network.perform_action _ _ _) as [[[success value] services]|];
    [|done]. simpl.
  by destruct (State.compromised st _).
Qed.

Lemma step_reachable_inv env a u st env' o r d :
  get_state env = Some st →
  State.reachable st (Action.target a) = Some true →
  step env a u = Some (env', (o, r, d)) →
  ∃ success value services c st',
    Network.perform_action (network env) a u = Some (success, value, services) ∧
    State.compromised st (Action.target a) = Some c ∧
    _update_state env a success services st = Some st' ∧
    _is_goal env st' = Some d ∧
    r = ((if (c : bool) then 0 else value) - Action.cost a)%Q ∧
    copy (put_state env st') st' = (o, env').
Proof.
  intros Hst Hr. rewrite (step_reachable _ _ _ _ Hst Hr). intros H.
  destruct (Network.perform_action _ _ _) as [[[success value] services]|];
    simplify_eq/=.
  destruct (State.compromised st _) as [c|]; simplify_eq/=.
  destruct (_update_state _ _ _ _ _) as [st'|] eqn:Hu; simplify_eq/=.
  destruct (_is_goal env st') as [d'|] eqn:Hg; simplify_eq/=.
  by exists success, value, services, c, st'.
Qed.

Lemma step_reachable_intro env a u st success value services c st' d o env' :
  get_state env = Some st →
  State.reachable st (Action.target a) = Some true →
  Network.perform_action (network env) a u = Some (success, value, services) →
  State.compromised st (Action.target a) = Some c →
  _update_state env a success services st = Some st' →
  _is_goal env st' = Some d →
  copy (put_state env st') st' = (o, env') →
  step env a u =
    Some (env', (o, ((if (c : bool) then 0 else value) - Action.cost a)%Q, d)).
Proof.
  intros Hst Hr Hp Hc Hu Hg Hcopy.
  rewrite (step_reachable _ _ _ _ Hst Hr), Hp. simpl.
  rewrite Hc. simpl. rewrite Hu. simpl. rewrite Hg. simpl.
  unfold copy, put_state, alloc in Hcopy. simpl in Hcopy. by simplify_eq.
Qed.

(** What [step] reads first: the current state and the target's flag. *)
Lemma step_gate env a u res :
  step env a u = Some res →
  ∃ st r, get_state env = Some st ∧
          State.reachable st (Action.target a) = Some r.
Proof.
  unfold step. intros H.
  destruct (get_state env) as [st|]; [|done]. simpl in H.
  destruct (State.reachable st _) as [r|] eqn:Hr; [|done]. by exists st, r.
Qed.

(** The frame of a step: the network, the address space and the reference
    [current_state] stay; the object it refers to only grows; the
    returned reference reads as the current state. *)
Lemma step_frame env a u env' o r d :
  step env a u = Some (env', (o, r, d)) →
  ∃ st st',
    get_state env = Some st ∧ get_state env' = Some st' ∧
    read env' o = Some st' ∧ state_le st st' ∧
    num_services env' = num_services env ∧ network env' = network env ∧
    address_space env' = address_space env ∧
    current_state env' = current_state env.
Proof.
  intros H. destruct (step_gate _ _ _ _ H) as (st & [] & Hst & Hr).
  - destruct (step_reachable_inv _ _ _ _ _ _ _ _ Hst Hr H)
      as (success & value & services & c & st' & _ & _ & Hu & _ & _ & Hc).
    destruct (copy_spec _ _ _ _ Hc) as (_&Hread&_&?&?&?&_&?).
    destruct (copy_get_state _ _ st' _ _ Hc (get_put_state _ _)) as [Hg _].
    exists st, st'. split_and!; try done. by eapply _update_state_le.
  - rewrite (step_not_reachable _ _ _ _ Hst Hr) in H. simplify_eq.
    exists st, st. split_and!; try done. apply state_le_refl.
Qed.
End Step.

(** ** [reset] *)
Section Reset.
Implicit Types (st : State.t) (m : Address) (env : Env).

Lemma reset_loop_spec net n ms : ∀ obs,
  (∀ m, m ∈ ms → m.1 < length (Network.subnets net)) →
  ∃ obs', reset_loop net n ms obs = Some obs' ∧
    (∀ m, m ∈ ms → ∃ exposed,
        Network.subnet_exposed net m.1 = Some exposed ∧
        obs' !! m =
          Some (State.mk_entry false exposed (replicate n Service.unknown))) ∧
    (∀ m, m ∉ ms → obs' !! m = obs !! m).
Proof.
  induction ms as [|m0 ms IH]; intros obs Hin; simpl.
  { exists obs. split_and!; [done| |done]. intros m Hm. by apply elem_of_nil in Hm. }
  destruct (lookup_lt_is_Some_2 (Network.subnets net) m0.1) as [sn Hsn].
  { apply Hin, list_elem_of_here. }
  unfold Network.subnet_exposed at 1. rewrite Hsn. simpl.
  set (e0 := State.mk_entry false _ _).
  destruct (IH (<[m0 := e0]> obs)) as (obs' & Hloop & Hms & Hout).
  { intros m Hm. apply Hin. by apply elem_of_cons; right. }
  exists obs'. split_and!; [done| |].
  - intros m Hm. destruct (decide (m ∈ ms)) as [|Hnin]; [by apply Hms|].
    apply elem_of_cons in Hm as [->|]; [|done].
    exists (Network.s_exposed sn). unfold Network.subnet_exposed.
    rewrite Hsn. split; [done|].
    rewrite (Hout _ Hnin), lookup_insert_eq. unfold e0.
    by destruct (Network.s_exposed sn).
  - intros m Hm. apply not_elem_of_cons in Hm as [Hne Hnin].
    rewrite (Hout _ Hnin). by rewrite lookup_insert_ne.
Qed.

(** C6.  Provided the subnets of the address space exist, every call of
    [reset] returns: the observation it returns is a new object, distinct
    from the current state but with the same content, in which every
    address of the address space has every service belief unknown (a vector
    of [num_services] beliefs), is not compromised, and is reachable exactly
    when its subnet is exposed. *)
Theorem reset_initial_observation env :
  (∀ m, m ∈ address_space env →
        m.1 < length (Network.subnets (network env))) →
  ∃ env' o st,
    reset env = Some (env', o) ∧
    read env' o = Some st ∧ get_state env' = Some st ∧
    o ≠ current_state env' ∧
    ∀ m, m ∈ address_space env →
      ∃ e exposed,
        State.obs st !! m = Some e ∧
        State.e_service_info e = replicate (num_services env) Service.unknown ∧
        State.e_compromised e = false ∧
        Network.subnet_exposed (network env) m.1 = Some exposed ∧
        State.e_reachable e = exposed.
Proof.
  intros Hin.
  destruct (reset_loop_spec (network env) (num_services env)
              (address_space env) ∅ Hin) as (obs' & Hloop & Hms & _).
  unfold reset. rewrite Hloop. simpl.
  eexists _, _, (State.mk obs'). split; [done|].
  unfold read, get_state. simpl.
  set (h1 := <[fresh (dom (heap env)) := State.mk obs']> (heap env)).
  assert (fresh (dom h1) ≠ fresh (dom (heap env))) as Hne.
  { intros Heq. apply (is_fresh (dom h1)). rewrite Heq. unfold h1.
    rewrite dom_insert_L. set_solver. }
  split_and!.
  - apply lookup_insert_eq.
  - rewrite lookup_insert_ne by done. apply lookup_insert_eq.
  - done.
  - intros m Hm. destruct (Hms m Hm) as (exposed & Hexp & Hobs).
    eexists _, exposed. by split_and!.
Qed.
End Reset.

Lemma reset_initial_observation_witness :
  (∀ m, m ∈ address_space env3 →
        m.1 < length (Network.subnets (network env3))) ∧
  ∃ env' o st,
    reset env3 = Some (env', o) ∧
    read env' o = Some st ∧ get_state env' = Some st ∧
    o ≠ current_state env' ∧
    ∀ m, m ∈ address_space env3 →
      ∃ e exposed,
        State.obs st !! m = Some e ∧
        State.e_service_info e = replicate (num_services env3) Service.unknown ∧
        State.e_compromised e = false ∧
        Network.subnet_exposed (network env3) m.1 = Some exposed ∧
        State.e_reachable e = exposed.
Proof.
  assert (∀ m, m ∈ address_space env3 →
               m.1 < length (Network.subnets (network env3))) as Hin.
  { apply Forall_forall. by apply (bool_decide_unpack _); vm_compute. }
  split; [exact Hin|]. exact (reset_initial_observation env3 Hin).
Defined.

(** ** The termination flag *)
Section Goal.
Implicit Types (st : State.t) (m : Address) (env : Env) (a : Action.t).

(** C2.  While the episode is in progress (the goal is not reached in the
    state the step starts from), the flag [done] a step returns is true
    exactly when every sensitive machine of the network is compromised in
    the state after the step, which is also what the returned observation
    reads. *)
Theorem step_done_iff_goal env a u env' o r d st :
  get_state env = Some st →
  _is_goal env st = Some false →
  step env a u = Some (env', (o, r, d)) →
  ∃ st', get_state env' = Some st' ∧ read env' o = Some st' ∧
    (d = true ↔
     ∀ g, g ∈ Network.get_sensitive_machines (network env) →
          State.compromised st' g = Some true).
Proof.
  intros Hst Hgoal Hstep.
  destruct (step_gate _ _ _ _ Hstep) as (st0 & [] & Hst0 & Hr);
    rewrite Hst in Hst0; simplify_eq.
  - destruct (step_reachable_inv _ _ _ _ _ _ _ _ Hst Hr Hstep)
      as (success & value & services & c & st' & _ & _ & Hu & Hg & _ & Hc).
    destruct (copy_spec _ _ _ _ Hc) as (_&Hread&_).
    destruct (copy_get_state _ _ st' _ _ Hc (get_put_state _ _)) as [Hg' _].
    exists st'. split_and!; [done..|]. by apply is_goal_loop_spec.
  - rewrite (step_not_reachable _ _ _ _ Hst Hr) in Hstep. simplify_eq.
    exists st0. split_and!; [done..|]. by apply is_goal_loop_spec.
Qed.

(** C7.  In a well-formed environment with the episode in progress, a scan
    of a reachable machine of the network returns: the reward is
    [0 - action.cost], [done] is false, and in the resulting observation
    the belief vector of the target is the machine's vulnerability vector
    (present where true, absent where false). *)
Theorem step_scan_reachable env a u st :
  well_formed env →
  get_state env = Some st →
  Action.is_scan a = true →
  valid_action (network env) a →
  State.reachable st (Action.target a) = Some true →
  _is_goal env st = Some false →
  ∃ env' o st' mach,
    step env a u = Some (env', (o, (0 - Action.cost a)%Q, false)) ∧
    read env' o = Some st' ∧ get_state env' = Some st' ∧
    Network.find_machine (network env) (Action.target a) = Some mach ∧
    State.e_service_info <$> State.obs st' !! Action.target a =
      Some (Service.of_bool <$> Network.m_services mach).
Proof.
  intros Hwf Hst Hscan [[sn Hsn] Hva] Hr Hgoal.
  unfold well_formed in Hwf. rewrite Hst in Hwf.
  destruct Hwf as (_ & _ & Hlen & _).
  destruct (Network.find_machine _ _) as [mach|] eqn:Hfind; [|done].
  unfold State.reachable in Hr.
  destruct (State.obs st !! Action.target a) as [e|] eqn:He; [|done].
  specialize (Hlen _ _ He). simpl in Hlen. rewrite Hfind in Hlen.
  assert (Action.type a = Action.scan) as Hty.
  { unfold Action.is_scan in Hscan. by destruct (Action.type a). }
  assert (Network.perform_action (network env) a u
          = Some (true, 0%Q, Network.m_services mach)) as Hperf.
  { unfold Network.perform_action. rewrite Hsn. simpl. rewrite Hfind. simpl.
    by rewrite Hty. }
  pose proof (update_services_loop_spec (Action.target a)
                (Network.m_services mach) 0 st e He) as Hloop.
  simpl in Hloop. rewrite <-Hlen, drop_all, app_nil_r in Hloop.
  specialize (Hloop (Nat.le_refl _)).
  set (st' := State.mk _) in Hloop.
  assert (_is_goal env st' = Some false) as Hgoal'.
  { unfold _is_goal in *. rewrite <-Hgoal. apply is_goal_loop_ext.
    intros m. by eapply update_services_loop_compromised. }
  destruct (copy (put_state env st') st') as [o env'] eqn:Hc.
  destruct (copy_spec _ _ _ _ Hc) as (_&Hread&_).
  destruct (copy_get_state _ _ st' _ _ Hc (get_put_state _ _)) as [Hg' _].
  exists env', o, st', mach. split_and!; [|done..|].
  - erewrite (step_reachable_intro _ _ _ st true 0%Q _ (State.e_compromised e));
      [by destruct (State.e_compromised e)|done| |done| | |done..].
    + unfold State.reachable. by rewrite He, Hr.
    + unfold State.compromised. by rewrite He.
    + by rewrite _update_state_scan.
  - unfold st'. simpl. by rewrite lookup_insert_eq.
Qed.
End Goal.

(** ** Sequences of steps *)
Section Runs.
Implicit Types (st : State.t) (m : Address) (env : Env) (a : Action.t).

Lemma run_cons_inv env a u rest env' outs :
  run env ((a, u) :: rest) = Some (env', outs) →
  ∃ env1 out outs', step env a u = Some (env1, out) ∧
    run env1 rest = Some (env', outs') ∧ outs = out :: outs'.
Proof.
  simpl. intros H.
  destruct (step env a u) as [[env1 out]|] eqn:Hs; [|done]. simpl in H.
  destruct (run env1 rest) as [[env2 outs']|] eqn:Hr; [|done]. simpl in H.
  injection H as <- <-. by exists env1, out, outs'.
Qed.

Lemma run_le acts : ∀ env env' outs st,
  run env acts = Some (env', outs) → get_state env = Some st →
  ∃ st', get_state env' = Some st' ∧ state_le st st'.
Proof.
  induction acts as [|[a u] rest IH]; intros env env' outs st Hrun Hst.
  - simpl in Hrun. simplify_eq. exists st. split; [done|apply state_le_refl].
  - apply run_cons_inv in Hrun as (env1 & [[o r] d] & outs' & Hstep & Hrun & ->).
    destruct (step_frame _ _ _ _ _ _ _ Hstep) as (st0 & st1 & Hst0 & Hst1 & _ & Hle & _).
    rewrite Hst in Hst0. simplify_eq.
    destruct (IH _ _ _ _ Hrun Hst1) as (st' & Hst' & Hle').
    exists st'. split; [done|]. by eapply state_le_trans.
Qed.

(** C8.  Over any sequence of steps without a reset in between, an address
    that is reachable stays reachable and an address that is compromised
    stays compromised. *)
Theorem flags_monotone env acts env' outs st st' m :
  run env acts = Some (env', outs) →
  get_state env = Some st → get_state env' = Some st' →
  (State.reachable st m = Some true → State.reachable st' m = Some true) ∧
  (State.compromised st m = Some true → State.compromised st' m = Some true).
Proof.
  intros Hrun Hst Hst'.
  destruct (run_le _ _ _ _ _ Hrun Hst) as (st1 & Hst1 & Hle).
  rewrite Hst' in Hst1. simplify_eq.
  split; [by apply state_le_reachable|by apply state_le_compromised].
Qed.

(** *** Rewards *)

(** Only a successful exploit yields a value. *)
Lemma perform_action_value n a u success value services :
  Network.perform_action n a u = Some (success, value, services) →
  ¬ (value == 0)%Q →
  success = true ∧ ∃ s, Action.type a = Action.exploit s.
Proof.
  unfold Network.perform_action. intros H Hv.
  destruct (Network.subnets n !! _) as [sn|]; simplify_eq/=.
  destruct (Network.find_machine n _) as [mach|]; simplify_eq/=.
  destruct (Action.type a) as [|s]; simplify_eq/=.
  - by destruct Hv.
  - destruct (Network.m_services mach !! s) as [[]|]; simplify_eq/=.
    + destruct (Network.bernoulli _ _); simplify_eq/=; [eauto|by destruct Hv].
    + by destruct Hv.
Qed.

(** The sensitive machines are the addresses of the rewarded machines. *)
Lemma elem_of_get_sensitive_machines n g :
  g ∈ Network.get_sensitive_machines n ↔
  ∃ mach, mach ∈ Network.machines n ∧ Network.m_address mach = g ∧
          ¬ (Network.m_value mach == 0)%Q.
Proof.
  unfold Network.get_sensitive_machines. rewrite list_elem_of_fmap.
  split.
  - intros (mach & -> & [Hrew Hin]%list_elem_of_filter).
    exists mach. split_and!; [done..|].
    unfold Network.rewarded in Hrew. intros Hz%Qeq_bool_iff.
    by rewrite Hz in Hrew.
  - intros (mach & Hin & <- & Hnz). exists mach. split; [done|].
    apply list_elem_of_filter. split; [|done].
    unfold Network.rewarded.
    destruct (Qeq_bool (Network.m_value mach) 0) eqn:Hz; [|done].
    by apply Qeq_bool_iff in Hz.
Qed.

Lemma reward_of_zero_value (c : Q) : (0 - c == - c)%Q.
Proof. ring. Qed.

(** The reward of a step on a target that is compromised already. *)
Lemma step_already_compromised env a u env' o r d st :
  get_state env = Some st →
  State.compromised st (Action.target a) = Some true →
  step env a u = Some (env', (o, r, d)) →
  r = (0 - Action.cost a)%Q.
Proof.
  intros Hst Hc Hstep.
  destruct (step_gate _ _ _ _ Hstep) as (st0 & [] & Hst0 & Hr);
    rewrite Hst in Hst0; simplify_eq.
  - destruct (step_reachable_inv _ _ _ _ _ _ _ _ Hst Hr Hstep)
      as (success & value & services & c & st' & _ & Hc' & _ & _ & -> & _).
    rewrite Hc in Hc'. by simplify_eq.
  - rewrite (step_not_reachable _ _ _ _ Hst Hr) in Hstep. by simplify_eq.
Qed.

(** A step that grants a machine's reward leaves its target compromised. *)
Lemma step_rewarded_compromised env a u env' o r d :
  step env a u = Some (env', (o, r, d)) →
  ¬ (r == - Action.cost a)%Q →
  ∃ st', get_state env' = Some st' ∧
         State.compromised st' (Action.target a) = Some true.
Proof.
  intros Hstep Hrew.
  destruct (step_gate _ _ _ _ Hstep) as (st & [] & Hst & Hr).
  - destruct (step_reachable_inv _ _ _ _ _ _ _ _ Hst Hr Hstep)
      as (success & value & services & c & st' & Hp & Hc & Hu & _ & -> & Hcopy).
    destruct (copy_get_state _ _ st' _ _ Hcopy (get_put_state _ _)) as [Hg' _].
    exists st'. split; [done|].
    destruct c.
    { destruct Hrew. apply reward_of_zero_value. }
    destruct (perform_action_value _ _ _ _ _ _ Hp) as (-> & s & Hty).
    { intros Hv. apply Hrew. rewrite Hv. apply reward_of_zero_value. }
    rewrite (_update_state_exploited _ _ s) in Hu by done.
    destruct (update_services_loop _ _ _ _) as [st1|]; simplify_eq/=.
    destruct (State.set_compromised st1 _) as [st2|] eqn:H2; simplify_eq/=.
    unfold _update_reachable in Hu.
    rewrite (update_reachable_loop_compromised _ _ _ _ _ _ Hu).
    by eapply set_compromised_eq.
  - rewrite (step_not_reachable _ _ _ _ Hst Hr) in Hstep. simplify_eq.
    destruct Hrew. apply reward_of_zero_value.
Qed.

(** Once a machine is compromised, no later step on it is rewarded. *)
Lemma run_compromised_no_reward acts : ∀ env env' outs st j b v ob rb db,
  run env acts = Some (env', outs) →
  get_state env = Some st →
  acts !! j = Some (b, v) → outs !! j = Some (ob, rb, db) →
  State.compromised st (Action.target b) = Some true →
  rb = (0 - Action.cost b)%Q.
Proof.
  induction acts as [|[a u] rest IH];
    intros env env' outs st j b v ob rb db Hrun Hst Hj Hoj Hc; [done|].
  apply run_cons_inv in Hrun as (env1 & [[o r] d] & outs' & Hstep & Hrun & ->).
  destruct j as [|j]; simplify_eq/=.
  - by eapply step_already_compromised.
  - destruct (step_frame _ _ _ _ _ _ _ Hstep)
      as (st0 & st1 & Hst0 & Hst1 & _ & Hle & _).
    rewrite Hst in Hst0. simplify_eq.
    eapply IH; [done..|]. by eapply state_le_compromised.
Qed.
End Runs.

Section Rewards.
Implicit Types (st : State.t) (m : Address) (env : Env) (a : Action.t).

(** C4.  A step on a reachable target that is compromised already returns
    the reward [- action.cost], whatever the action and its outcome, also
    for a successful exploit of a machine with a positive reward.  And a
    machine's reward is granted at most once: within a sequence of steps,
    once a step on a machine returned a reward other than [- action.cost],
    every later step on that machine returns [- action.cost]. *)
Theorem reward_granted_once :
  (∀ env a u env' o r d st,
     get_state env = Some st →
     State.reachable st (Action.target a) = Some true →
     State.compromised st (Action.target a) = Some true →
     step env a u = Some (env', (o, r, d)) →
     (r == - Action.cost a)%Q) ∧
  (∀ env acts env' outs i j a u b v oa ra da ob rb db,
     run env acts = Some (env', outs) →
     i < j →
     acts !! i = Some (a, u) → acts !! j = Some (b, v) →
     Action.target a = Action.target b →
     outs !! i = Some (oa, ra, da) → outs !! j = Some (ob, rb, db) →
     ¬ (ra == - Action.cost a)%Q →
     (rb == - Action.cost b)%Q).
Proof.
  split.
  - intros env a u env' o r d st Hst _ Hc Hstep.
    rewrite (step_already_compromised _ _ _ _ _ _ _ _ Hst Hc Hstep).
    apply reward_of_zero_value.
  - intros env acts. revert env.
    induction acts as [|[a0 u0] rest IH];
      intros env env' outs i j a u b v oa ra da ob rb db
             Hrun Hij Hi Hj Htgt Hoi Hoj Hrew; [done|].
    apply run_cons_inv in Hrun
      as (env1 & [[o r] d] & outs' & Hstep & Hrun & ->).
    destruct j as [|j]; [lia|]. destruct i as [|i]; simplify_eq/=.
    + destruct (step_rewarded_compromised _ _ _ _ _ _ _ Hstep Hrew)
        as (st1 & Hst1 & Hc).
      rewrite Htgt in Hc.
      rewrite (run_compromised_no_reward _ _ _ _ _ _ _ _ _ _ _
                 Hrun Hst1 Hj Hoj Hc).
      apply reward_of_zero_value.
    + eapply (IH env1 env' outs' i j a u b v); eauto with lia.
Qed.

(** C5.  After a step with a successful exploit of a reachable machine,
    every address of the address space whose subnet is connected to the
    target's subnet is reachable in the resulting observation, and an
    address whose subnet is not connected to it has the reachability flag
    it had before. *)
Theorem step_exploit_propagates env a s u env' o r d st value services :
  get_state env = Some st →
  State.reachable st (Action.target a) = Some true →
  Action.type a = Action.exploit s →
  Network.perform_action (network env) a u = Some (true, value, services) →
  step env a u = Some (env', (o, r, d)) →
  ∃ st', read env' o = Some st' ∧ get_state env' = Some st' ∧
    ∀ m,
      (m ∈ address_space env →
       Network.subnets_connected (network env) (Action.target a).1 m.1
         = Some true →
       State.reachable st' m = Some true) ∧
      (Network.subnets_connected (network env) (Action.target a).1 m.1
         ≠ Some true →
       State.reachable st' m = State.reachable st m).
Proof.
  intros Hst Hr Hty Hp Hstep.
  destruct (step_reachable_inv _ _ _ _ _ _ _ _ Hst Hr Hstep)
    as (success & value' & services' & c & st' & Hp' & _ & Hu & _ & _ & Hcopy).
  rewrite Hp in Hp'. simplify_eq.
  destruct (copy_spec _ _ _ _ Hcopy) as (_&Hread&_).
  destruct (copy_get_state _ _ st' _ _ Hcopy (get_put_state _ _)) as [Hg' _].
  exists st'. split_and!; [done..|].
  rewrite (_update_state_exploited _ _ s) in Hu by done.
  destruct (update_services_loop _ _ _ _) as [st1|] eqn:H1; simplify_eq/=.
  destruct (State.set_compromised st1 _) as [st2|] eqn:H2; simplify_eq/=.
  unfold _update_reachable in Hu. intros m. split.
  - intros Hm Hconn. by eapply update_reachable_loop_connected.
  - intros Hconn.
    rewrite (update_reachable_loop_other _ _ _ _ _ _ Hu Hconn).
    rewrite (set_compromised_reachable _ _ _ _ H2).
    by eapply update_services_loop_reachable.
Qed.

(** C3, as the code has it.  When an exploit of a reachable target misses
    although the targeted service is vulnerable, the step marks the
    attacked service absent in the target's beliefs; every other service
    belief of the target keeps its previous value. *)
Theorem step_missed_exploit env a s u env' o r d st mach :
  get_state env = Some st →
  State.reachable st (Action.target a) = Some true →
  Action.type a = Action.exploit s →
  Network.find_machine (network env) (Action.target a) = Some mach →
  Network.m_services mach !! s = Some true →
  Network.bernoulli (Action.prob a) u = false →
  step env a u = Some (env', (o, r, d)) →
  ∃ st', read env' o = Some st' ∧ get_state env' = Some st' ∧
    State.service_state st' (Action.target a) s = Some Service.absent ∧
    ∀ i, i ≠ s →
      State.service_state st' (Action.target a) i
      = State.service_state st (Action.target a) i.
Proof.
  intros Hst Hr Hty Hfind Hvuln Hmiss Hstep.
  destruct (step_reachable_inv _ _ _ _ _ _ _ _ Hst Hr Hstep)
    as (success & value & services & c & st' & Hp & _ & Hu & _ & _ & Hcopy).
  destruct (copy_spec _ _ _ _ Hcopy) as (_&Hread&_).
  destruct (copy_get_state _ _ st' _ _ Hcopy (get_put_state _ _)) as [Hg' _].
  exists st'. split_and!; [done..| |].
  all: unfold Network.perform_action in Hp;
    destruct (Network.subnets _ !! _) as [sn|]; simplify_eq/=;
    rewrite Hfind in Hp; simpl in Hp; rewrite Hty in Hp;
    rewrite Hvuln in Hp; simpl in Hp; rewrite Hmiss in Hp; simplify_eq/=;
    rewrite (_update_state_failed _ _ s) in Hu by done;
    unfold State.update_service in Hu; unfold State.service_state;
    destruct (State.obs st !! Action.target a) as [e|] eqn:He; simplify_eq/=;
    case_decide; simplify_eq/=; rewrite lookup_insert_eq; simpl.
  - by apply list_lookup_insert_eq.
  - intros i Hi. by rewrite list_lookup_insert_ne.
Qed.
End Rewards.

(** ** Steps do not raise in a well-formed environment *)
Section Totality.
Implicit Types (st : State.t) (m : Address) (env : Env) (a : Action.t).

Lemma perform_action_total n a u :
  valid_action n a →
  ∃ mach success value services,
    Network.find_machine n (Action.target a) = Some mach ∧
    Network.perform_action n a u = Some (success, value, services) ∧
    (success = true ∧ services = Network.m_services mach ∨
     success = false ∧ ∃ s, Action.type a = Action.exploit s).
Proof.
  intros [[sn Hsn] Hva]. unfold Network.perform_action. rewrite Hsn. simpl.
  destruct (Network.find_machine n _) as [mach|]; [|done]. simpl.
  exists mach. destruct (Action.type a) as [|s] eqn:Hty.
  - eexists _, _, _. split_and!; [done..|]. by left.
  - destruct (lookup_lt_is_Some_2 _ _ Hva) as [vulnerable ->]. simpl.
    destruct vulnerable; [destruct (Network.bernoulli _ _)|];
      eexists _, _, _; (split_and!; [done..|]); eauto.
Qed.

Lemma update_reachable_loop_total net cs ms : ∀ st,
  (∀ m, m ∈ ms → is_Some (State.obs st !! m)) →
  (∀ m, m ∈ ms → is_Some (Network.subnets_connected net cs m.1)) →
  is_Some (update_reachable_loop net cs ms st).
Proof.
  induction ms as [|m0 ms IH]; intros st Hdom Hconn; simpl; [by eexists|].
  destruct (Hdom m0 (list_elem_of_here _ _)) as [e He].
  unfold State.reachable at 1. rewrite He. simpl.
  assert (∀ m, m ∈ ms → is_Some (Network.subnets_connected net cs m.1)).
  { intros m Hm. apply Hconn. by apply elem_of_cons; right. }
  assert (∀ m, m ∈ ms → is_Some (State.obs st !! m)) as Hdom'.
  { intros m Hm. apply Hdom. by apply elem_of_cons; right. }
  destruct (State.e_reachable e); [by apply IH|].
  destruct (Hconn m0 (list_elem_of_here _ _)) as [c ->]. simpl.
  destruct c; [|by apply IH].
  unfold State.set_reachable at 1. rewrite He. simpl.
  apply IH; [|done]. intros m Hm. simpl.
  destruct (decide (m0 = m)) as [->|Hne].
  - rewrite lookup_insert_eq. by eexists.
  - rewrite lookup_insert_ne by done. by apply Hdom'.
Qed.

Lemma _update_state_total env a u st e mach success value services :
  well_formed_state env st →
  valid_action (network env) a →
  State.obs st !! Action.target a = Some e →
  Network.find_machine (network env) (Action.target a) = Some mach →
  Network.perform_action (network env) a u = Some (success, value, services) →
  is_Some (_update_state env a success services st).
Proof.
  intros (Hdom & _ & Hlen & Htopo) [_ Hva] He Hfind Hp.
  specialize (Hlen _ _ He). simpl in Hlen. rewrite Hfind in *.
  specialize (Htopo _ _ He). simpl in Htopo.
  destruct (perform_action_total (network env) a u) as
    (mach' & success' & value' & services' & Hfind' & Hp' & Hcases).
  { split; [|by rewrite Hfind].
    unfold Network.perform_action in Hp.
    destruct (Network.subnets _ !! _); [by eexists|done]. }
  rewrite Hfind in Hfind'. rewrite Hp in Hp'. simplify_eq.
  pose proof (update_services_loop_spec (Action.target a)
                (Network.m_services mach') 0 st e He) as Hloop.
  simpl in Hloop. specialize (Hloop ltac:(lia)).
  destruct (Action.type a) as [|s] eqn:Hty.
  - destruct Hcases as [[-> ->]|[_ [s ?]]]; [|done].
    rewrite _update_state_scan by (unfold Action.is_scan; by rewrite Hty).
    rewrite Hloop. by eexists.
  - destruct Hcases as [[-> ->]|[-> _]].
    + rewrite (_update_state_exploited _ _ s), Hloop by done. simpl.
      unfold State.set_compromised. simpl. rewrite lookup_insert_eq. simpl.
      rewrite insert_insert_eq. unfold _update_reachable.
      apply update_reachable_loop_total.
      * intros m Hm. simpl. rewrite Forall_forall in Hdom.
        destruct (decide (Action.target a = m)) as [->|Hne].
        -- rewrite lookup_insert_eq. by eexists.
        -- rewrite lookup_insert_ne by done. by apply Hdom.
      * intros m Hm. rewrite Forall_forall in Htopo. by apply Htopo.
    + rewrite (_update_state_failed _ _ s) by done.
      unfold State.update_service. rewrite He. simpl.
      rewrite decide_True by lia. by eexists.
Qed.

(** C10.  In a well-formed environment whose current state is a goal
    state, a step with an action of the network's contract on a reachable
    target is carried out like any other: the action is resolved, the
    reward value is zeroed for a compromised target, the state is updated
    by [_update_state], and the step returns with [done] true. *)
Theorem step_after_goal env a u st :
  well_formed env →
  get_state env = Some st →
  _is_goal env st = Some true →
  valid_action (network env) a →
  State.reachable st (Action.target a) = Some true →
  ∃ env' o st' success value services c,
    Network.perform_action (network env) a u = Some (success, value, services) ∧
    State.compromised st (Action.target a) = Some c ∧
    _update_state env a success services st = Some st' ∧
    step env a u =
      Some (env', (o, ((if (c : bool) then 0 else value) - Action.cost a)%Q, true)) ∧
    get_state env' = Some st' ∧ read env' o = Some st' ∧
    o ≠ current_state env'.
Proof.
  intros Hwf Hst Hgoal Hva Hr.
  unfold well_formed in Hwf. rewrite Hst in Hwf.
  destruct (perform_action_total (network env) a u Hva)
    as (mach & success & value & services & Hfind & Hp & _).
  pose proof Hr as Hr'. unfold State.reachable in Hr'.
  destruct (State.obs st !! Action.target a) as [e|] eqn:He; [|done].
  destruct (_update_state_total _ _ _ _ _ _ _ _ _ Hwf Hva He Hfind Hp)
    as [st' Hu].
  assert (_is_goal env st' = Some true) as Hgoal'.
  { eapply is_goal_loop_mono; [|done]. by eapply _update_state_le. }
  destruct (copy (put_state env st') st') as [o env'] eqn:Hcopy.
  destruct (copy_spec _ _ _ _ Hcopy) as (_&Hread&_).
  destruct (copy_get_state _ _ st' _ _ Hcopy (get_put_state _ _)) as [Hg' Hne].
  exists env', o, st', success, value, services, (State.e_compromised e).
  assert (State.compromised st (Action.target a)
          = Some (State.e_compromised e)) as Hc.
  { unfold State.compromised. by rewrite He. }
  split_and!; [done..| |done|done|done].
  by eapply step_reachable_intro.
Qed.
End Totality.

(** ** Well-formedness is an invariant *)
Section WellFormed.
Implicit Types (st : State.t) (m : Address) (env : Env) (a : Action.t).

Lemma find_machine_Some n m mach :
  Network.find_machine n m = Some mach →
  mach ∈ Network.machines n ∧ Network.m_address mach = m.
Proof.
  unfold Network.find_machine. intros H. apply find_some in H as [Hin Heq].
  split; [by apply list_elem_of_In|]. by apply bool_decide_eq_true in Heq.
Qed.

Lemma well_formed_state_le env env' st st' :
  network env' = network env → address_space env' = address_space env →
  state_le st st' → well_formed_state env st → well_formed_state env' st'.
Proof.
  intros Hnet Hads Hle (Ha & Hb & Hc & Hd).
  unfold well_formed_state. rewrite Hnet, Hads. split_and!.
  - eapply Forall_impl; [done|]. intros m. by apply state_le_is_Some.
  - eapply Forall_impl; [done|]. intros m. by apply state_le_is_Some.
  - intros m e' He'. pose proof (Hle m) as Hm. simpl in Hm. rewrite He' in Hm.
    destruct (State.obs st !! m) as [e|] eqn:He; [|done].
    specialize (Hc _ _ He). simpl in *.
    destruct (Network.find_machine _ _); [|done].
    destruct Hm as (_&_&Hlen). congruence.
  - intros m e' He'. pose proof (Hle m) as Hm. simpl in Hm. rewrite He' in Hm.
    destruct (State.obs st !! m) as [e|] eqn:He; [|done].
    by apply (Hd _ _ He).
Qed.

Lemma step_well_formed env a u env' out :
  well_formed env → step env a u = Some (env', out) → well_formed env'.
Proof.
  destruct out as [[o r] d]. intros Hwf Hstep.
  destruct (step_frame _ _ _ _ _ _ _ Hstep)
    as (st & st' & Hst & Hst' & _ & Hle & _ & Hnet & Hads & _).
  unfold well_formed in *. rewrite Hst in Hwf. rewrite Hst'.
  by eapply well_formed_state_le.
Qed.

(** X22.  Well-formedness is kept: a sequence of steps leads from a
    well-formed environment to a well-formed environment. *)
Lemma run_well_formed acts : ∀ env env' outs,
  well_formed env → run env acts = Some (env', outs) → well_formed env'.
Proof.
  induction acts as [|[a u] rest IH]; intros env env' outs Hwf Hrun.
  - simpl in Hrun. by simplify_eq.
  - apply run_cons_inv in Hrun as (env1 & out & outs' & Hstep & Hrun & ->).
    eapply IH; [|done]. by eapply step_well_formed.
Qed.

(** X21.  The construction succeeds on a well-formed network and
    establishes the invariant: the environment it returns is well-formed,
    with the network and the number of services it was given. *)
Lemma init_well_formed n_services net :
  well_formed_network n_services net →
  ∃ env, init n_services net = Some env ∧ well_formed env ∧
         network env = net ∧ num_services env = n_services.
Proof.
  intros Hnet. unfold well_formed_network in Hnet.
  rewrite Forall_forall in Hnet.
  set (env0 := mkEnv n_services net (Network.get_address_space net) 0 0 ∅).
  assert (∀ m, m ∈ Network.get_address_space net →
               ∃ mach, mach ∈ Network.machines net ∧
                       Network.m_address mach = m) as Hads.
  { intros m Hm. unfold Network.get_address_space in Hm.
    apply list_elem_of_fmap in Hm as (mach & -> & Hin). eauto. }
  destruct (reset_loop_spec net n_services (Network.get_address_space net) ∅)
    as (obs' & Hloop & Hms & Hout).
  { intros m Hm. destruct (Hads m Hm) as (mach & Hin & <-).
    by apply (Hnet mach Hin). }
  unfold init, reset. simpl. rewrite Hloop. simpl.
  eexists. split; [done|]. split_and!; [|done..].
  unfold well_formed, get_state. simpl.
  set (h1 := <[fresh (dom (∅ : gmap ref State.t)) := State.mk obs']> ∅).
  assert (fresh (dom h1) ≠ fresh (dom (∅ : gmap ref State.t))) as Hne.
  { intros Heq. apply (is_fresh (dom h1)). rewrite Heq. unfold h1.
    rewrite dom_insert_L. set_solver. }
  rewrite lookup_insert_ne by done. unfold h1. rewrite lookup_insert_eq.
  assert (∀ m e, obs' !! m = Some e →
     m ∈ Network.get_address_space net ∧
     length (State.e_service_info e) = n_services) as Hkeys.
  { intros m e He.
    destruct (decide (m ∈ Network.get_address_space net)) as [Hm|Hm].
    - split; [done|]. destruct (Hms m Hm) as (exposed & _ & He').
      rewrite He in He'. simplify_eq. simpl. apply length_replicate.
    - rewrite (Hout m Hm) in He. by rewrite lookup_empty in He. }
  unfold well_formed_state. simpl. split_and!.
  - apply Forall_forall. intros m Hm.
    destruct (Hms m Hm) as (exposed & _ & ->). by eexists.
  - apply Forall_forall. intros g Hg.
    unfold Network.get_sensitive_machines in Hg.
    apply list_elem_of_fmap in Hg as (mach & -> & Hin).
    apply list_elem_of_filter in Hin as [_ Hin].
    destruct (Hms (Network.m_address mach)) as (exposed & _ & ->);
      [|by eexists].
    unfold Network.get_address_space. apply list_elem_of_fmap. eauto.
  - intros m e He. destruct (Hkeys m e He) as [_ Hlen].
    destruct (Network.find_machine net m) as [mach|] eqn:Hfind; [|done].
    apply find_machine_Some in Hfind as [Hin _].
    destruct (Hnet mach Hin) as (_ & Hn & _). congruence.
  - intros m1 e1 He1. destruct (Hkeys m1 e1 He1) as [Hm1 _].
    apply Forall_forall. intros m2 Hm2.
    destruct (Hads m1 Hm1) as (mach1 & Hin1 & <-).
    destruct (Hads m2 Hm2) as (mach2 & Hin2 & <-).
    destruct (Hnet mach1 Hin1) as (_ & _ & Hconn).
    rewrite Forall_forall in Hconn. by apply Hconn.
Qed.
End WellFormed.

(** ** The small network, step by step *)
Section Example3Facts.

Lemma env3_state : get_state env3 = Some st3.
Proof. vm_compute. reflexivity. Qed.

Lemma env3_well_formed : well_formed env3.
Proof. apply (bool_decide_unpack _). vm_compute. exact I. Qed.

Lemma env3_goal_state : get_state env3_goal = Some st3_goal.
Proof. vm_compute. reflexivity. Qed.

Lemma env3_goal_well_formed : well_formed env3_goal.
Proof. apply (bool_decide_unpack _). vm_compute. exact I. Qed.

(** C1, on the code.  In the small network machine [(1, 0)] is not
    reachable after construction.  A scan of it returns the reference
    [current_state] itself and not a copy: the observation the caller holds
    shows service 0 of machine [(0, 0)] as unknown when it is returned, and
    as present after the next step, a scan of [(0, 0)]. *)
Theorem step_not_reachable_returns_live_reference :
  ∃ env1 o r d env2 out2 seen seen',
    State.reachable st3 (1, 0) = Some false ∧
    step env3 (Example3.scan (1, 0)) 0 = Some (env1, (o, r, d)) ∧
    o = current_state env1 ∧
    read env1 o = Some seen ∧
    State.service_state seen (0, 0) 0 = Some Service.unknown ∧
    step env1 (Example3.scan (0, 0)) 0 = Some (env2, out2) ∧
    read env2 o = Some seen' ∧
    State.service_state seen' (0, 0) 0 = Some Service.present.
Proof. do 8 eexists. split_and!; vm_compute; reflexivity. Qed.

(** C3 fails on the code: service 0 of machine [(0, 0)] is vulnerable and
    its belief is unknown; an exploit with probability 1/2 that misses (the
    sample is 3/4) leaves the belief absent, not unknown. *)
Lemma missed_exploit_marks_service_absent :
  ∃ mach env' o r d st',
    get_state env3 = Some st3 ∧
    State.reachable st3 (0, 0) = Some true ∧
    Network.find_machine (network env3) (0, 0) = Some mach ∧
    Network.m_services mach !! 0 = Some true ∧
    Network.bernoulli (Action.prob (exploit3_half (0, 0))) (3 # 4) = false ∧
    step env3 (exploit3_half (0, 0)) (3 # 4) = Some (env', (o, r, d)) ∧
    read env' o = Some st' ∧
    State.service_state st3 (0, 0) 0 = Some Service.unknown ∧
    State.service_state st' (0, 0) 0 = Some Service.absent ∧
    State.service_state st' (0, 0) 0 ≠ State.service_state st3 (0, 0) 0.
Proof.
  do 6 eexists. split_and!; [vm_compute; reflexivity..|].
  vm_compute. discriminate.
Qed.

Lemma step_missed_exploit_witness :
  ∃ env' o r d st',
    step env3 (exploit3_half (0, 0)) (3 # 4) = Some (env', (o, r, d)) ∧
    read env' o = Some st' ∧
    State.service_state st' (0, 0) 0 = Some Service.absent.
Proof.
  destruct (step env3 (exploit3_half (0, 0)) (3 # 4))
    as [[env' [[o r] d]]|] eqn:Hstep; [|by vm_compute in Hstep].
  destruct (step_missed_exploit env3 (exploit3_half (0, 0)) 0 (3 # 4)
              env' o r d st3 (Network.mk_machine (0, 0) [true] 0))
    as (st' & Hread & _ & Habs & _);
    [vm_compute; reflexivity..|exact Hstep|].
  by exists env', o, r, d, st'.
Defined.

Lemma step_done_iff_goal_witness :
  ∃ env' o r d st',
    step env3 (exploit3 (0, 0)) 0 = Some (env', (o, r, d)) ∧
    read env' o = Some st' ∧
    (d = true ↔
     ∀ g, g ∈ Network.get_sensitive_machines (network env3) →
          State.compromised st' g = Some true).
Proof.
  destruct (step env3 (exploit3 (0, 0)) 0)
    as [[env' [[o r] d]]|] eqn:Hstep; [|by vm_compute in Hstep].
  destruct (step_done_iff_goal env3 (exploit3 (0, 0)) 0 env' o r d st3)
    as (st' & _ & Hread & Hiff);
    [vm_compute; reflexivity..|exact Hstep|].
  by exists env', o, r, d, st'.
Defined.

Lemma step_scan_reachable_witness :
  ∃ env' o st',
    step env3 (Example3.scan (0, 0)) 0 = Some (env', (o, (0 - 1)%Q, false)) ∧
    read env' o = Some st' ∧
    State.e_service_info <$> State.obs st' !! (0, 0) = Some [Service.present].
Proof.
  destruct (step_scan_reachable env3 (Example3.scan (0, 0)) 0 st3)
    as (env' & o & st' & mach & Hstep & Hread & _ & Hfind & Hinfo).
  - apply (bool_decide_unpack _). vm_compute. exact I.
  - vm_compute. reflexivity.
  - reflexivity.
  - apply (bool_decide_unpack _). vm_compute. exact I.
  - vm_compute. reflexivity.
  - vm_compute. reflexivity.
  - exists env', o, st'. split_and!; [done..|].
    vm_compute in Hfind. by simplify_eq.
Defined.

Lemma step_exploit_propagates_witness :
  ∃ env' o r d st',
    step env3 (exploit3 (0, 0)) 0 = Some (env', (o, r, d)) ∧
    read env' o = Some st' ∧
    State.reachable st' (1, 0) = Some true ∧
    State.reachable st' (2, 0) = Some true.
Proof.
  destruct (step env3 (exploit3 (0, 0)) 0)
    as [[env' [[o r] d]]|] eqn:Hstep; [|by vm_compute in Hstep].
  destruct (step_exploit_propagates env3 (exploit3 (0, 0)) 0 0 env' o r d st3
              0%Q [true])
    as (st' & Hread & _ & Hall);
    [vm_compute; reflexivity..|exact Hstep|].
  exists env', o, r, d, st'. split_and!; [done..| |].
  - apply (Hall (1, 0)); [|vm_compute; reflexivity].
    apply (bool_decide_unpack _). vm_compute. exact I.
  - apply (Hall (2, 0)); [|vm_compute; reflexivity].
    apply (bool_decide_unpack _). vm_compute. exact I.
Defined.

Lemma flags_monotone_witness :
  State.reachable st3 (0, 0) = Some true ∧
  State.reachable st3_goal (0, 0) = Some true.
Proof.
  split; [vm_compute; reflexivity|].
  destruct (run env3 [(exploit3 (0, 0), 0%Q); (exploit3 (1, 0), 0%Q);
                      (exploit3 (2, 0), 0%Q)])
    as [[env' outs]|] eqn:Hrun; [|by vm_compute in Hrun].
  assert (env3_goal = env') as Heq.
  { unfold env3_goal. by rewrite Hrun. }
  destruct (flags_monotone env3 _ env' outs st3 st3_goal (0, 0) Hrun)
    as [Hreach _].
  - vm_compute. reflexivity.
  - rewrite <-Heq. vm_compute. reflexivity.
  - apply Hreach. vm_compute. reflexivity.
Defined.

Lemma reward_granted_once_witness :
  (∃ env' o r d,
     step env3_goal (exploit3 (1, 0)) 0 = Some (env', (o, r, d)) ∧
     (r == - 1)%Q) ∧
  (∃ env' o1 d1 o2 r2 d2 outs,
     run env3 [(exploit3 (0, 0), 0%Q); (exploit3 (1, 0), 0%Q);
               (exploit3 (1, 0), 0%Q)] = Some (env', outs) ∧
     outs !! 1 = Some (o1, (1000 - 1)%Q, d1) ∧
     outs !! 2 = Some (o2, r2, d2) ∧ (r2 == - 1)%Q).
Proof.
  split.
  - destruct (step env3_goal (exploit3 (1, 0)) 0)
      as [[env' [[o r] d]]|] eqn:Hstep; [|by vm_compute in Hstep].
    exists env', o, r, d. split; [done|].
    apply (proj1 reward_granted_once env3_goal (exploit3 (1, 0)) 0%Q
             env' o r d st3_goal);
      [vm_compute; reflexivity..|exact Hstep].
  - destruct (run env3 [(exploit3 (0, 0), 0%Q); (exploit3 (1, 0), 0%Q);
                        (exploit3 (1, 0), 0%Q)])
      as [[env' outs]|] eqn:Hrun; [|by vm_compute in Hrun].
    pose proof Hrun as Houts. vm_compute in Houts.
    injection Houts as _ Houts.
    destruct outs as [|out0 [|[[o1 r1] d1] [|[[o2 r2] d2] [|]]]];
      try discriminate Houts.
    injection Houts as _ Ho1 Hr1 Hd1 _ _ _.
    assert (r1 = (1000 - 1)%Q) as -> by (rewrite <-Hr1; reflexivity).
    exists env', o1, d1, o2, r2, d2, [out0; (o1, (1000 - 1)%Q, d1); (o2, r2, d2)].
    split_and!; [reflexivity..|].
    apply (proj2 reward_granted_once env3 _ env' _ 1 2
             (exploit3 (1, 0)) 0%Q (exploit3 (1, 0)) 0%Q
             o1 (1000 - 1)%Q d1 o2 r2 d2 Hrun);
      [lia|reflexivity..|].
    vm_compute. discriminate.
Defined.

Lemma step_after_goal_witness :
  ∃ env' o,
    step env3_goal (exploit3 (1, 0)) 0 = Some (env', (o, (0 - 1)%Q, true)).
Proof.
  destruct (step_after_goal env3_goal (exploit3 (1, 0)) 0 st3_goal)
    as (env' & o & st' & success & value & services & c &
        Hp & Hc & _ & Hstep & _).
  - apply (bool_decide_unpack _). vm_compute. exact I.
  - vm_compute. reflexivity.
  - vm_compute. reflexivity.
  - apply (bool_decide_unpack _). vm_compute. exact I.
  - vm_compute. reflexivity.
  - exists env', o. rewrite Hstep. vm_compute in Hc. by simplify_eq.
Defined.
End Example3Facts.

(** * Further properties of the controller *)

(** ** The object store under [reset] and [step] *)
Section Store.
Implicit Types (st : State.t) (m : Address) (env : Env) (a : Action.t).

Lemma step_fields env a u env' out :
  step env a u = Some (env', out) →
  num_services env' = num_services env ∧ network env' = network env ∧
  address_space env' = address_space env ∧
  reset_count env' = reset_count env ∧
  current_state env' = current_state env.
Proof.
  destruct out as [[o r] d]. intros Hstep.
  destruct (step_gate _ _ _ _ Hstep) as (st & [] & Hst & Hr).
  - destruct (step_reachable_inv _ _ _ _ _ _ _ _ Hst Hr Hstep)
      as (success & value & services & c & st' & _ & _ & _ & _ & _ & Hc).
    by destruct (copy_spec _ _ _ _ Hc) as (_&_&_&?&?&?&?&?).
  - rewrite (step_not_reachable _ _ _ _ Hst Hr) in Hstep. by simplify_eq.
Qed.

(** A step writes to the object [current_state] refers to and to a new
    object; every other object is left as it is. *)
Lemma step_store_frame env a u env' out r :
  step env a u = Some (env', out) →
  r ≠ current_state env → is_Some (heap env !! r) →
  heap env' !! r = heap env !! r.
Proof.
  destruct out as [[o rw] d]. intros Hstep Hne [x Hx].
  destruct (step_gate _ _ _ _ Hstep) as (st & [] & Hst & Hr).
  - destruct (step_reachable_inv _ _ _ _ _ _ _ _ Hst Hr Hstep)
      as (success & value & services & c & st' & _ & _ & _ & _ & _ & Hc).
    destruct (copy_spec _ _ _ _ Hc) as (Hfresh & _ & Hrest & _).
    assert (heap (put_state env st') !! r = heap env !! r) as Hput.
    { unfold put_state. simpl. by rewrite lookup_insert_ne. }
    rewrite Hrest; [done|]. intros ->. congruence.
  - rewrite (step_not_reachable _ _ _ _ Hst Hr) in Hstep. by simplify_eq.
Qed.

Lemma run_fields acts : ∀ env env' outs,
  run env acts = Some (env', outs) →
  num_services env' = num_services env ∧ network env' = network env ∧
  address_space env' = address_space env ∧
  reset_count env' = reset_count env ∧
  current_state env' = current_state env.
Proof.
  induction acts as [|[a u] rest IH]; intros env env' outs Hrun.
  - simpl in Hrun. by simplify_eq.
  - apply run_cons_inv in Hrun as (env1 & out & outs' & Hstep & Hrun & ->).
    destruct (step_fields _ _ _ _ _ Hstep) as (?&?&?&?&?).
    destruct (IH _ _ _ Hrun) as (?&?&?&?&?).
    split_and!; congruence.
Qed.

Lemma run_store_frame acts : ∀ env env' outs r,
  run env acts = Some (env', outs) →
  r ≠ current_state env → is_Some (heap env !! r) →
  heap env' !! r = heap env !! r.
Proof.
  induction acts as [|[a u] rest IH]; intros env env' outs r Hrun Hne Hr.
  - simpl in Hrun. by simplify_eq.
  - apply run_cons_inv in Hrun as (env1 & out & outs' & Hstep & Hrun & ->).
    pose proof (step_store_frame _ _ _ _ _ _ Hstep Hne Hr) as H1.
    destruct (step_fields _ _ _ _ _ Hstep) as (_&_&_&_&Hcur).
    rewrite (IH _ _ _ r Hrun); [done|congruence|by rewrite H1].
Qed.

Lemma reset_inv env env1 o :
  reset env = Some (env1, o) →
  ∃ obs,
    reset_loop (network env) (num_services env) (address_space env) ∅
      = Some obs ∧
    current_state env1 = fresh (dom (heap env)) ∧
    o = fresh (dom (<[fresh (dom (heap env)) := State.mk obs]> (heap env))) ∧
    heap env1 = <[o := State.mk obs]>
                  (<[fresh (dom (heap env)) := State.mk obs]> (heap env)) ∧
    num_services env1 = num_services env ∧ network env1 = network env ∧
    address_space env1 = address_space env ∧
    reset_count env1 = reset_count env + 1.
Proof.
  unfold reset. intros H.
  destruct (reset_loop _ _ _ _) as [obs|] eqn:Hloop; [|done].
  simpl in H. unfold copy, alloc in H. simpl in H. simplify_eq.
  exists obs. by split_and!.
Qed.

Lemma reset_fresh env env1 o :
  reset env = Some (env1, o) →
  heap env !! current_state env1 = None ∧ heap env !! o = None ∧
  o ≠ current_state env1 ∧
  ∃ st, get_state env1 = Some st ∧ read env1 o = Some st.
Proof.
  intros (obs & _ & Hcur & Ho & Hheap & _)%reset_inv.
  set (h1 := <[fresh (dom (heap env)) := State.mk obs]> (heap env)) in *.
  assert (heap env !! fresh (dom (heap env)) = None) as Hf1
    by apply not_elem_of_dom, is_fresh.
  assert (h1 !! o = None) as Hf2
    by (rewrite Ho; apply not_elem_of_dom, is_fresh).
  assert (o ≠ fresh (dom (heap env))) as Hne.
  { intros Heq. rewrite Heq in Hf2. unfold h1 in Hf2.
    by rewrite lookup_insert_eq in Hf2. }
  rewrite Hcur. split_and!; [done| |done|].
  - unfold h1 in Hf2. by rewrite lookup_insert_ne in Hf2.
  - exists (State.mk obs). unfold get_state, read. rewrite Hheap, Hcur.
    rewrite lookup_insert_ne by done. unfold h1.
    by rewrite !lookup_insert_eq.
Qed.

(** X1.  The observation a step on a reachable target returns is a
    snapshot: it reads as the state right after that step, and no later
    step changes what it reads. *)
Theorem step_snapshot_immutable env a u env1 o r d st acts env2 outs :
  get_state env = Some st →
  State.reachable st (Action.target a) = Some true →
  step env a u = Some (env1, (o, r, d)) →
  run env1 acts = Some (env2, outs) →
  ∃ snap, get_state env1 = Some snap ∧ read env1 o = Some snap ∧
          read env2 o = Some snap.
Proof.
  intros Hst Hr Hstep Hrun.
  destruct (step_reachable_inv _ _ _ _ _ _ _ _ Hst Hr Hstep)
    as (success & value & services & c & st' & _ & _ & _ & _ & _ & Hc).
  destruct (copy_spec _ _ _ _ Hc) as (_ & Hread & _).
  destruct (copy_get_state _ _ st' _ _ Hc (get_put_state _ _)) as [Hg Hne].
  exists st'. split_and!; [done..|].
  unfold read in *. rewrite <-Hread.
  eapply run_store_frame; [done..|]. by rewrite Hread.
Qed.

(** X2.  [reset] creates two new objects and modifies none: whatever a
    reference read before, it still reads; and no later step changes what
    the observation returned by [reset] reads. *)
Theorem reset_snapshot_immutable env env1 o :
  reset env = Some (env1, o) →
  (∀ r, is_Some (heap env !! r) → heap env1 !! r = heap env !! r) ∧
  (∀ acts env2 outs,
     run env1 acts = Some (env2, outs) → read env2 o = read env1 o).
Proof.
  intros Hreset.
  destruct (reset_fresh _ _ _ Hreset) as (Hf1 & Hf2 & Hne & st & Hg & Hread).
  destruct (reset_inv _ _ _ Hreset) as (obs & _ & Hcur & _ & Hheap & _).
  split.
  - intros r [x Hx]. rewrite Hheap.
    rewrite !lookup_insert_ne; [done|..]; intros Heq; congruence.
  - intros acts env2 outs Hrun. unfold read.
    eapply run_store_frame; [done..|]. unfold read in Hread. by rewrite Hread.
Qed.

(** X3.  [reset] forgets the episode: after any sequence of steps it
    returns an observation with the content it had returned before them,
    makes that content the current state, and counts one more reset. *)
Theorem reset_after_run env acts env' outs env1 o1 :
  run env acts = Some (env', outs) →
  reset env = Some (env1, o1) →
  ∃ env2 o2 st0,
    reset env' = Some (env2, o2) ∧
    read env1 o1 = Some st0 ∧ read env2 o2 = Some st0 ∧
    get_state env2 = Some st0 ∧
    reset_count env2 = reset_count env + 1.
Proof.
  intros Hrun Hreset.
  destruct (run_fields _ _ _ _ Hrun) as (Hn & Hnet & Hads & Hcnt & _).
  destruct (reset_inv _ _ _ Hreset) as (obs & Hloop & _ & _ & Hheap & _).
  destruct (reset env') as [[env2 o2]|] eqn:Hreset'.
  - destruct (reset_inv _ _ _ Hreset')
      as (obs' & Hloop' & Hcur' & Ho' & Hheap' & _ & _ & _ & Hcnt').
    rewrite Hn, Hnet, Hads, Hloop in Hloop'. injection Hloop' as <-.
    destruct (reset_fresh _ _ _ Hreset') as (_ & _ & Hne' & st' & Hg' & Hr').
    exists env2, o2, (State.mk obs).
    assert (read env2 o2 = Some (State.mk obs)) as Hread2.
    { unfold read. rewrite Hheap'. apply lookup_insert_eq. }
    split_and!; [done| |done| |lia].
    + unfold read. rewrite Hheap. apply lookup_insert_eq.
    + congruence.
  - unfold reset in Hreset'. rewrite Hn, Hnet, Hads, Hloop in Hreset'.
    simpl in Hreset'. unfold copy, alloc in Hreset'. done.
Qed.
End Store.

(** ** What a step changes *)
Section StepEffect.
Implicit Types (st : State.t) (m : Address) (env : Env) (a : Action.t).

Lemma update_service_other st m s v st' m' :
  State.update_service st m s v = Some st' → m ≠ m' →
  State.obs st' !! m' = State.obs st !! m'.
Proof.
  unfold State.update_service. intros H Hne.
  destruct (State.obs st !! m) as [e|] eqn:Hm; simplify_eq/=.
  case_decide; simplify_eq/=. by rewrite lookup_insert_ne.
Qed.

Lemma update_services_loop_other target services m : ∀ s st st',
  update_services_loop target services s st = Some st' → target ≠ m →
  State.obs st' !! m = State.obs st !! m.
Proof.
  induction services as [|b services IH]; intros s st st' H Hne; simplify_eq/=.
  - done.
  - destruct (State.update_service st target s _) as [st1|] eqn:H1;
      simplify_eq/=.
    erewrite IH by done. by eapply update_service_other.
Qed.

Lemma set_compromised_other st m st' m' :
  State.set_compromised st m = Some st' → m ≠ m' →
  State.obs st' !! m' = State.obs st !! m'.
Proof.
  unfold State.set_compromised. intros H Hne.
  destruct (State.obs st !! m) as [e|] eqn:Hm; simplify_eq/=.
  by rewrite lookup_insert_ne.
Qed.

Lemma set_compromised_info st m st' m' :
  State.set_compromised st m = Some st' →
  State.e_service_info <$> State.obs st' !! m'
  = State.e_service_info <$> State.obs st !! m'.
Proof.
  unfold State.set_compromised. intros H.
  destruct (State.obs st !! m) as [e|] eqn:Hm; simplify_eq/=.
  destruct (decide (m = m')) as [<-|Hne].
  - by rewrite lookup_insert_eq, Hm.
  - by rewrite lookup_insert_ne.
Qed.

Lemma set_reachable_info st m st' m' :
  State.set_reachable st m = Some st' →
  State.e_service_info <$> State.obs st' !! m'
  = State.e_service_info <$> State.obs st !! m'.
Proof.
  unfold State.set_reachable. intros H.
  destruct (State.obs st !! m) as [e|] eqn:Hm; simplify_eq/=.
  destruct (decide (m = m')) as [<-|Hne].
  - by rewrite lookup_insert_eq, Hm.
  - by rewrite lookup_insert_ne.
Qed.

Lemma update_reachable_loop_info net cs ms m : ∀ st st',
  update_reachable_loop net cs ms st = Some st' →
  State.e_service_info <$> State.obs st' !! m
  = State.e_service_info <$> State.obs st !! m.
Proof.
  induction ms as [|m0 ms IH]; intros st st' H; simplify_eq/=; [done|].
  destruct (State.reachable st m0) as [[]|] eqn:Hr; simplify_eq/=;
    [by eapply IH|].
  destruct (Network.subnets_connected net cs m0.1) as [[]|] eqn:Hc0;
    simplify_eq/=; [|by eapply IH].
  destruct (State.set_reachable st m0) as [st1|] eqn:H1; simplify_eq/=.
  erewrite IH by done. by eapply set_reachable_info.
Qed.

(** A scan and an unsuccessful exploit leave every flag as it is. *)
Lemma _update_state_quiet env a success services st st' :
  _update_state env a success services st = Some st' →
  Action.is_scan a = true ∨ success = false →
  ∀ m, State.compromised st' m = State.compromised st m ∧
       State.reachable st' m = State.reachable st m.
Proof.
  intros Hu Hq m. destruct (Action.type a) as [|s] eqn:Hty.
  - rewrite _update_state_scan in Hu
      by (unfold Action.is_scan; by rewrite Hty).
    split; [by eapply update_services_loop_compromised|
            by eapply update_services_loop_reachable].
  - destruct Hq as [Hscan| ->].
    { unfold Action.is_scan in Hscan. by rewrite Hty in Hscan. }
    rewrite (_update_state_failed _ _ s) in Hu by done.
    split; [by eapply update_service_compromised|
            by eapply update_service_reachable].
Qed.

(** A successful exploit compromises the target and nothing else, and
    makes reachable what is connected to the target's subnet. *)
Lemma _update_state_exploit_effect env a services st st' :
  Action.is_scan a = false →
  _update_state env a true services st = Some st' →
  State.compromised st' (Action.target a) = Some true ∧
  (∀ m, m ≠ Action.target a →
        State.compromised st' m = State.compromised st m) ∧
  (∀ m, m ∈ address_space env →
        Network.subnets_connected (network env) (Action.target a).1 m.1
          = Some true →
        State.reachable st' m = Some true) ∧
  (∀ m, Network.subnets_connected (network env) (Action.target a).1 m.1
          ≠ Some true →
        State.reachable st' m = State.reachable st m).
Proof.
  intros Hscan Hu. unfold Action.is_scan in Hscan.
  destruct (Action.type a) as [|s] eqn:Hty; [done|].
  rewrite (_update_state_exploited _ _ s) in Hu by done.
  destruct (update_services_loop _ _ _ _) as [st1|] eqn:H1; simplify_eq/=.
  destruct (State.set_compromised st1 _) as [st2|] eqn:H2; simplify_eq/=.
  unfold _update_reachable in Hu. split_and!.
  - rewrite (update_reachable_loop_compromised _ _ _ _ _ _ Hu).
    by eapply set_compromised_eq.
  - intros m Hm.
    rewrite (update_reachable_loop_compromised _ _ _ _ _ _ Hu).
    unfold State.compromised.
    rewrite (set_compromised_other _ _ _ _ H2) by done.
    by rewrite (update_services_loop_other _ _ _ _ _ _ H1).
  - intros m Hm Hconn. by eapply update_reachable_loop_connected.
  - intros m Hconn.
    rewrite (update_reachable_loop_other _ _ _ _ _ _ Hu Hconn).
    rewrite (set_compromised_reachable _ _ _ _ H2).
    by eapply update_services_loop_reachable.
Qed.

Lemma _update_state_other env a success services st st' m :
  _update_state env a success services st = Some st' →
  m ≠ Action.target a →
  State.compromised st' m = State.compromised st m ∧
  State.e_service_info <$> State.obs st' !! m
  = State.e_service_info <$> State.obs st !! m.
Proof.
  intros Hu Hm. destruct (Action.type a) as [|s] eqn:Hty.
  - rewrite _update_state_scan in Hu
      by (unfold Action.is_scan; by rewrite Hty).
    split; [by eapply update_services_loop_compromised|].
    by rewrite (update_services_loop_other _ _ _ _ _ _ Hu).
  - destruct success.
    + split.
      * eapply _update_state_exploit_effect; [|done..].
        unfold Action.is_scan. by rewrite Hty.
      * rewrite (_update_state_exploited _ _ s) in Hu by done.
        destruct (update_services_loop _ _ _ _) as [st1|] eqn:H1;
          simplify_eq/=.
        destruct (State.set_compromised st1 _) as [st2|] eqn:H2;
          simplify_eq/=.
        unfold _update_reachable in Hu.
        rewrite (update_reachable_loop_info _ _ _ _ _ _ Hu).
        rewrite (set_compromised_info _ _ _ _ H2).
        by rewrite (update_services_loop_other _ _ _ _ _ _ H1).
    + rewrite (_update_state_failed _ _ s) in Hu by done.
      split; [by eapply update_service_compromised|].
      by rewrite (update_service_other _ _ _ _ _ _ Hu).
Qed.

(** The two ways a step ends, with the states before and after. *)
Lemma step_inv env a u env' o r d st :
  step env a u = Some (env', (o, r, d)) →
  get_state env = Some st →
  (State.reachable st (Action.target a) = Some false ∧ env' = env ∧
   o = current_state env ∧ r = (0 - Action.cost a)%Q ∧ d = false) ∨
  (State.reachable st (Action.target a) = Some true ∧
   ∃ success value services c st',
     Network.perform_action (network env) a u
       = Some (success, value, services) ∧
     State.compromised st (Action.target a) = Some c ∧
     _update_state env a success services st = Some st' ∧
     _is_goal env st' = Some d ∧
     r = ((if (c : bool) then 0 else value) - Action.cost a)%Q ∧
     get_state env' = Some st' ∧ read env' o = Some st').
Proof.
  intros Hstep Hst.
  destruct (step_gate _ _ _ _ Hstep) as (st0 & [] & Hst0 & Hr);
    rewrite Hst in Hst0; simplify_eq.
  - right. split; [done|].
    destruct (step_reachable_inv _ _ _ _ _ _ _ _ Hst Hr Hstep)
      as (success & value & services & c & st' & Hp & Hc & Hu & Hg & -> & Hcopy).
    destruct (copy_spec _ _ _ _ Hcopy) as (_ & Hread & _).
    destruct (copy_get_state _ _ st' _ _ Hcopy (get_put_state _ _)) as [Hg' _].
    by exists success, value, services, c, st'.
  - left. rewrite (step_not_reachable _ _ _ _ Hst Hr) in Hstep.
    by simplify_eq.
Qed.

(** X4.  A step changes the compromised flag and the service beliefs of
    its target only: for every other address both are as before. *)
Theorem step_other_addresses env a u env' o r d st st' m :
  step env a u = Some (env', (o, r, d)) →
  get_state env = Some st → get_state env' = Some st' →
  m ≠ Action.target a →
  State.compromised st' m = State.compromised st m ∧
  State.e_service_info <$> State.obs st' !! m
  = State.e_service_info <$> State.obs st !! m.
Proof.
  intros Hstep Hst Hst' Hm.
  destruct (step_inv _ _ _ _ _ _ _ _ Hstep Hst)
    as [(_ & -> & _)|(_ & success & value & services & c & st1 &
                      _ & _ & Hu & _ & _ & Hg & _)].
  - rewrite Hst in Hst'. by simplify_eq.
  - rewrite Hst' in Hg. simplify_eq. by eapply _update_state_other.
Qed.

(** X5.  A scan changes no flag: after a step with a scan every address
    is compromised and reachable exactly as before, and the beliefs of the
    addresses other than the target are as before. *)
Theorem step_scan_keeps_flags env a u env' o r d st st' :
  step env a u = Some (env', (o, r, d)) →
  get_state env = Some st → get_state env' = Some st' →
  Action.is_scan a = true →
  ∀ m, State.compromised st' m = State.compromised st m ∧
       State.reachable st' m = State.reachable st m ∧
       (m ≠ Action.target a → State.obs st' !! m = State.obs st !! m).
Proof.
  intros Hstep Hst Hst' Hscan m.
  destruct (step_inv _ _ _ _ _ _ _ _ Hstep Hst)
    as [(_ & -> & _)|(_ & success & value & services & c & st1 &
                      _ & _ & Hu & _ & _ & Hg & _)].
  - rewrite Hst in Hst'. by simplify_eq.
  - rewrite Hst' in Hg. simplify_eq.
    destruct (_update_state_quiet _ _ _ _ _ _ Hu (or_introl Hscan) m)
      as [Hc Hr].
    split_and!; [done..|]. intros Hm.
    rewrite _update_state_scan in Hu by done.
    by eapply update_services_loop_other.
Qed.
End StepEffect.

(** ** Invariants of an episode *)
Section Episode.
Implicit Types (st : State.t) (m : Address) (env : Env) (a : Action.t).

Lemma reset_loop_Some_inv net n ms : ∀ obs obs',
  reset_loop net n ms obs = Some obs' →
  ∀ m, m ∈ ms → m.1 < length (Network.subnets net).
Proof.
  induction ms as [|m0 ms IH]; intros obs obs' H m Hm.
  { by apply elem_of_nil in Hm. }
  simpl in H. unfold Network.subnet_exposed in H.
  destruct (Network.subnets net !! m0.1) as [sn|] eqn:Hsn; [|done].
  simpl in H. apply elem_of_cons in Hm as [->|Hm].
  - by eapply lookup_lt_Some.
  - by eapply IH.
Qed.

(** The state right after [reset]. *)
Lemma reset_state env env1 o :
  reset env = Some (env1, o) →
  ∃ st, get_state env1 = Some st ∧ read env1 o = Some st ∧
    (∀ m, m ∈ address_space env →
       ∃ exposed,
         Network.subnet_exposed (network env) m.1 = Some exposed ∧
         State.obs st !! m =
           Some (State.mk_entry false exposed
                   (replicate (num_services env) Service.unknown))) ∧
    (∀ m, m ∉ address_space env → State.obs st !! m = None).
Proof.
  intros Hreset.
  destruct (reset_inv _ _ _ Hreset) as (obs & Hloop & Hcur & Ho & Hheap & _).
  destruct (reset_fresh _ _ _ Hreset) as (_ & _ & Hne & st & Hg & Hread).
  assert (st = State.mk obs) as ->.
  { unfold read in Hread. rewrite Hheap, lookup_insert_eq in Hread.
    by simplify_eq. }
  destruct (reset_loop_spec (network env) (num_services env)
              (address_space env) ∅) as (obs' & Hloop' & Hms & Hout).
  { by eapply reset_loop_Some_inv. }
  rewrite Hloop in Hloop'. simplify_eq.
  exists (State.mk obs'). split_and!; [done..|].
  intros m Hm. simpl. by rewrite (Hout m Hm), lookup_empty.
Qed.

Lemma reset_compromised env env1 o st m :
  reset env = Some (env1, o) → get_state env1 = Some st →
  State.compromised st m ≠ Some true.
Proof.
  intros Hreset Hst.
  destruct (reset_state _ _ _ Hreset) as (st0 & Hst0 & _ & Hin & Hout).
  rewrite Hst in Hst0. simplify_eq. unfold State.compromised.
  destruct (decide (m ∈ address_space env)) as [Hm|Hm].
  - destruct (Hin m Hm) as (exposed & _ & ->). done.
  - by rewrite (Hout m Hm).
Qed.

(** *** Compromised machines are reachable *)

Lemma step_compromised_reachable env a u env' out st st' :
  step env a u = Some (env', out) →
  get_state env = Some st → get_state env' = Some st' →
  compromised_reachable st → compromised_reachable st'.
Proof.
  destruct out as [[o r] d]. intros Hstep Hst Hst' Hinv m Hc.
  destruct (step_inv _ _ _ _ _ _ _ _ Hstep Hst)
    as [(_ & -> & _)|(Hr & success & value & services & c & st1 &
                      _ & _ & Hu & _ & _ & Hg & _)].
  - rewrite Hst in Hst'. simplify_eq. by apply Hinv.
  - rewrite Hst' in Hg. simplify_eq.
    pose proof (_update_state_le _ _ _ _ _ _ Hu) as Hle.
    eapply state_le_reachable; [done|].
    destruct (decide (m = Action.target a)) as [->|Hne]; [done|].
    apply Hinv.
    by destruct (_update_state_other _ _ _ _ _ _ m Hu Hne) as [<- _].
Qed.

Lemma run_compromised_reachable acts : ∀ env env' outs st st',
  run env acts = Some (env', outs) →
  get_state env = Some st → get_state env' = Some st' →
  compromised_reachable st → compromised_reachable st'.
Proof.
  induction acts as [|[a u] rest IH]; intros env env' outs st st' Hrun Hst Hst'.
  - simpl in Hrun. injection Hrun as <- _. rewrite Hst in Hst'.
    by simplify_eq.
  - apply run_cons_inv in Hrun as (env1 & out & outs' & Hstep & Hrun & ->).
    destruct out as [[o r] d].
    destruct (step_frame _ _ _ _ _ _ _ Hstep) as (st0 & st1 & _ & Hst1 & _).
    intros Hinv. eapply IH; [done..|].
    by eapply step_compromised_reachable.
Qed.

(** X6.  In every state of an episode (after [reset] and any sequence of
    steps) a compromised machine is reachable. *)
Theorem episode_compromised_reachable env0 env o acts env' outs st' m :
  reset env0 = Some (env, o) →
  run env acts = Some (env', outs) →
  get_state env' = Some st' →
  State.compromised st' m = Some true → State.reachable st' m = Some true.
Proof.
  intros Hreset Hrun Hst'.
  destruct (reset_state _ _ _ Hreset) as (st & Hst & _).
  revert m. change (compromised_reachable st').
  eapply run_compromised_reachable; [done..|].
  intros m Hc. by destruct (reset_compromised _ _ _ _ m Hreset Hst).
Qed.

(** *** What makes an address reachable *)

Lemma reachable_explained_ext env env' st st' :
  network env' = network env → address_space env' = address_space env →
  (∀ m, State.compromised st' m = State.compromised st m ∧
        State.reachable st' m = State.reachable st m) →
  reachable_explained env st → reachable_explained env' st'.
Proof.
  intros Hnet Hads Hsame Hinv m Hm. rewrite Hads in Hm. rewrite Hnet.
  destruct (Hsame m) as [_ ->]. etrans; [apply (Hinv m Hm)|].
  split; (intros [?|(c0 & Hc0 & ?)]; [by left|right]; exists c0;
          split; [|done]; destruct (Hsame c0) as [Heq _]; congruence).
Qed.

Lemma step_reachable_explained env a u env' out st st' :
  step env a u = Some (env', out) →
  get_state env = Some st → get_state env' = Some st' →
  reachable_explained env st → reachable_explained env' st'.
Proof.
  destruct out as [[o r] d]. intros Hstep Hst Hst' Hinv.
  destruct (step_fields _ _ _ _ _ Hstep) as (_ & Hnet & Hads & _).
  destruct (step_inv _ _ _ _ _ _ _ _ Hstep Hst)
    as [(_ & -> & _)|(Hr & success & value & services & c & st1 &
                      _ & _ & Hu & _ & _ & Hg & _)].
  { rewrite Hst in Hst'. by simplify_eq. }
  rewrite Hst' in Hg. simplify_eq.
  pose proof (_update_state_le _ _ _ _ _ _ Hu) as Hle.
  destruct (Action.is_scan a) eqn:Hscan; [|destruct success].
  - eapply reachable_explained_ext; [done..| |done].
    by eapply _update_state_quiet; [|left].
  - destruct (_update_state_exploit_effect _ _ _ _ _ Hscan Hu)
      as (Htgt & Hother & Hconn & Hrest).
    intros m Hm. rewrite Hads in Hm. rewrite Hnet. split.
    + intros Hreach.
      destruct (decide (Network.subnets_connected (network env)
                          (Action.target a).1 m.1 = Some true)) as [Hc|Hc].
      * right. by exists (Action.target a).
      * rewrite (Hrest m Hc) in Hreach. apply (Hinv m Hm) in Hreach.
        destruct Hreach as [?|(c0 & Hc0 & ?)]; [by left|right].
        exists c0. split; [|done]. by eapply state_le_compromised.
    + intros [Hexp|(c0 & Hc0 & Hconn0)].
      * eapply state_le_reachable; [done|]. apply (Hinv m Hm). by left.
      * destruct (decide (c0 = Action.target a)) as [->|Hne]; [by apply Hconn|].
        eapply state_le_reachable; [done|]. apply (Hinv m Hm). right.
        exists c0. split; [|done]. by rewrite <-(Hother c0 Hne).
  - eapply reachable_explained_ext; [done..| |done].
    by eapply _update_state_quiet; [|right].
Qed.

Lemma run_reachable_explained acts : ∀ env env' outs st st',
  run env acts = Some (env', outs) →
  get_state env = Some st → get_state env' = Some st' →
  reachable_explained env st → reachable_explained env' st'.
Proof.
  induction acts as [|[a u] rest IH]; intros env env' outs st st' Hrun Hst Hst'.
  - simpl in Hrun. injection Hrun as <- _. rewrite Hst in Hst'.
    by simplify_eq.
  - apply run_cons_inv in Hrun as (env1 & out & outs' & Hstep & Hrun & ->).
    destruct out as [[o r] d].
    destruct (step_frame _ _ _ _ _ _ _ Hstep) as (st0 & st1 & _ & Hst1 & _).
    intros Hinv. eapply IH; [done..|].
    by eapply step_reachable_explained.
Qed.

(** X7.  In every state of an episode an address of the address space is
    reachable exactly when its subnet is exposed or connected to the subnet
    of a machine that is compromised. *)
Theorem episode_reachable_iff env0 env o acts env' outs st' m :
  reset env0 = Some (env, o) →
  run env acts = Some (env', outs) →
  get_state env' = Some st' →
  m ∈ address_space env0 →
  State.reachable st' m = Some true ↔
  Network.subnet_exposed (network env0) m.1 = Some true ∨
  ∃ c, State.compromised st' c = Some true ∧
       Network.subnets_connected (network env0) c.1 m.1 = Some true.
Proof.
  intros Hreset Hrun Hst' Hm.
  destruct (reset_state _ _ _ Hreset) as (st & Hst & _ & Hin & _).
  destruct (reset_inv _ _ _ Hreset) as (_ & _ & _ & _ & _ & _ & Hnet & Hads & _).
  destruct (run_fields _ _ _ _ Hrun) as (_ & Hnet' & Hads' & _).
  assert (reachable_explained env' st') as Hinv.
  { eapply run_reachable_explained; [done..|].
    intros m0 Hm0. rewrite Hads in Hm0. rewrite Hnet.
    destruct (Hin m0 Hm0) as (exposed & Hexp & Hobs).
    unfold State.reachable. rewrite Hobs, Hexp. simpl. split.
    - intros [= ->]. by left.
    - intros [[= ->]|(c0 & Hc0 & _)]; [done|].
      by destruct (reset_compromised _ _ _ _ c0 Hreset Hst). }
  rewrite <-Hnet, <-Hnet'. apply Hinv. by rewrite Hads', Hads.
Qed.

(** *** The shape of the observation *)

Lemma state_le_shape env env' st st' :
  address_space env' = address_space env →
  num_services env' = num_services env →
  state_le st st' → observation_shape env st → observation_shape env' st'.
Proof.
  intros Hads Hn Hle Hsh m. specialize (Hle m). specialize (Hsh m).
  rewrite Hads, Hn.
  destruct (State.obs st !! m) as [e|], (State.obs st' !! m) as [e'|];
    try done.
  destruct Hle as (_ & _ & Hlen). destruct Hsh as [? ?].
  split; [done|congruence].
Qed.

Lemma run_shape acts : ∀ env env' outs st st',
  run env acts = Some (env', outs) →
  get_state env = Some st → get_state env' = Some st' →
  observation_shape env st → observation_shape env' st'.
Proof.
  intros env env' outs st st' Hrun Hst Hst' Hsh.
  destruct (run_le _ _ _ _ _ Hrun Hst) as (st1 & Hst1 & Hle).
  rewrite Hst' in Hst1. simplify_eq.
  destruct (run_fields _ _ _ _ Hrun) as (Hn & _ & Hads & _).
  by eapply state_le_shape.
Qed.

(** X8.  In every state of an episode the observation has an entry for
    exactly the addresses of the address space, each with a belief vector
    of [num_services] entries. *)
Theorem episode_observation_shape env0 env o acts env' outs st' m :
  reset env0 = Some (env, o) →
  run env acts = Some (env', outs) →
  get_state env' = Some st' →
  match State.obs st' !! m with
  | Some e => m ∈ address_space env0 ∧
              length (State.e_service_info e) = num_services env0
  | None => m ∉ address_space env0
  end.
Proof.
  intros Hreset Hrun Hst'.
  destruct (reset_state _ _ _ Hreset) as (st & Hst & _ & Hin & Hout).
  destruct (reset_inv _ _ _ Hreset) as (_ & _ & _ & _ & _ & Hn & _ & Hads & _).
  destruct (run_fields _ _ _ _ Hrun) as (Hn' & _ & Hads' & _).
  assert (observation_shape env' st') as Hsh.
  { eapply run_shape; [done..|]. intros m0. rewrite Hads, Hn.
    destruct (decide (m0 ∈ address_space env0)) as [Hm0|Hm0].
    - destruct (Hin m0 Hm0) as (exposed & _ & ->). split; [done|].
      apply length_replicate.
    - by rewrite (Hout m0 Hm0). }
  specialize (Hsh m). by rewrite Hads', Hads, Hn', Hn in Hsh.
Qed.
End Episode.

(** ** Beliefs *)
Section Beliefs.
Implicit Types (st : State.t) (m : Address) (env : Env) (a : Action.t).

Lemma update_service_state st m s v st' m' i :
  State.update_service st m s v = Some st' →
  State.service_state st' m' i =
    if decide (m' = m ∧ i = s) then Some v else State.service_state st m' i.
Proof.
  unfold State.update_service, State.service_state. intros H.
  destruct (State.obs st !! m) as [e|] eqn:Hm; simplify_eq/=.
  case_decide as Hlt; simplify_eq/=.
  destruct (decide (m' = m)) as [->|Hne].
  - rewrite lookup_insert_eq, Hm. simpl.
    destruct (decide (i = s)) as [->|Hi].
    + rewrite decide_True by done. by apply list_lookup_insert_eq.
    + rewrite decide_False by (intros [_ ?]; done).
      by apply list_lookup_insert_ne.
  - rewrite lookup_insert_ne by done.
    by rewrite decide_False by (intros [? _]; done).
Qed.

Lemma info_service_state st st' m i :
  State.e_service_info <$> State.obs st' !! m
  = State.e_service_info <$> State.obs st !! m →
  State.service_state st' m i = State.service_state st m i.
Proof.
  unfold State.service_state. intros H.
  destruct (State.obs st' !! m) as [e'|], (State.obs st !! m) as [e|];
    simpl in *; try done.
  injection H as H. by rewrite H.
Qed.

Lemma update_service_known st m s v st' m' i :
  State.update_service st m s v = Some st' → v ≠ Service.unknown →
  known st m' i → known st' m' i.
Proof.
  intros H Hv (w & Hw & Hne). unfold known.
  rewrite (update_service_state _ _ _ _ _ _ _ H).
  case_decide; eauto.
Qed.

Lemma update_services_loop_known target services m i : ∀ s st st',
  update_services_loop target services s st = Some st' →
  known st m i → known st' m i.
Proof.
  induction services as [|b services IH]; intros s st st' H Hk; simplify_eq/=.
  - done.
  - destruct (State.update_service st target s _) as [st1|] eqn:H1;
      simplify_eq/=.
    eapply IH; [done|]. eapply update_service_known; [done| |done].
    by destruct b.
Qed.

Lemma _update_state_known env a success services st st' m i :
  _update_state env a success services st = Some st' →
  known st m i → known st' m i.
Proof.
  intros Hu Hk. destruct (Action.type a) as [|s] eqn:Hty.
  - rewrite _update_state_scan in Hu
      by (unfold Action.is_scan; by rewrite Hty).
    by eapply update_services_loop_known.
  - destruct success.
    + rewrite (_update_state_exploited _ _ s) in Hu by done.
      destruct (update_services_loop _ _ _ _) as [st1|] eqn:H1; simplify_eq/=.
      destruct (State.set_compromised st1 _) as [st2|] eqn:H2; simplify_eq/=.
      unfold _update_reachable in Hu.
      pose proof (update_services_loop_known _ _ _ _ _ _ _ H1 Hk)
        as (w & Hw & Hne).
      exists w. split; [|done]. rewrite <-Hw.
      etrans; [apply info_service_state;
               by eapply update_reachable_loop_info|].
      apply info_service_state. by eapply set_compromised_info.
    + rewrite (_update_state_failed _ _ s) in Hu by done.
      by eapply update_service_known.
Qed.

Lemma run_known acts : ∀ env env' outs st st' m i,
  run env acts = Some (env', outs) →
  get_state env = Some st → get_state env' = Some st' →
  known st m i → known st' m i.
Proof.
  induction acts as [|[a u] rest IH];
    intros env env' outs st st' m i Hrun Hst Hst' Hk.
  - simpl in Hrun. injection Hrun as <- _. rewrite Hst in Hst'.
    by simplify_eq.
  - apply run_cons_inv in Hrun as (env1 & [[o r] d] & outs' & Hstep & Hrun & ->).
    destruct (step_inv _ _ _ _ _ _ _ _ Hstep Hst)
      as [(_ & -> & _)|(_ & success & value & services & c & st1 &
                        _ & _ & Hu & _ & _ & Hg & _)].
    + by eapply IH.
    + eapply IH; [done..|]. by eapply _update_state_known.
Qed.

(** X9.  Knowledge is kept: a service belief that is present or absent
    never goes back to unknown in a later state of the episode. *)
Theorem belief_never_forgotten env acts env' outs st st' m i v :
  run env acts = Some (env', outs) →
  get_state env = Some st → get_state env' = Some st' →
  State.service_state st m i = Some v → v ≠ Service.unknown →
  ∃ v', State.service_state st' m i = Some v' ∧ v' ≠ Service.unknown.
Proof.
  intros Hrun Hst Hst' Hv Hne.
  eapply (run_known _ _ _ _ _ _ m i Hrun Hst Hst'). by exists v.
Qed.

(** *** Beliefs against the ground truth *)

(** What [perform_action] returns, by kind of action. *)
Lemma perform_action_inv n a u success value services :
  Network.perform_action n a u = Some (success, value, services) →
  is_Some (Network.subnets n !! (Action.target a).1) ∧
  ∃ mach, Network.find_machine n (Action.target a) = Some mach ∧
    match Action.type a with
    | Action.scan =>
        success = true ∧ value = 0%Q ∧ services = Network.m_services mach
    | Action.exploit s =>
        s < length (Network.m_services mach) ∧
        (success = true ∧ Network.m_services mach !! s = Some true ∧
         value = Network.m_value mach ∧ services = Network.m_services mach ∨
         success = false ∧ value = 0%Q ∧ services = [])
    end.
Proof.
  unfold Network.perform_action. intros H.
  destruct (Network.subnets n !! _) as [sn|]; simplify_eq/=.
  split; [by eexists|].
  destruct (Network.find_machine n _) as [mach|]; simplify_eq/=.
  exists mach. split; [done|].
  destruct (Action.type a) as [|s]; simplify_eq/=; [done|].
  destruct (Network.m_services mach !! s) as [vulnerable|] eqn:Hv;
    simplify_eq/=.
  split; [by eapply lookup_lt_Some|].
  destruct vulnerable; [destruct (Network.bernoulli _ _)|]; simplify_eq/=;
    auto.
Qed.

Lemma update_services_loop_present target services m i : ∀ s st st',
  update_services_loop target services s st = Some st' →
  State.service_state st' m i = Some Service.present →
  State.service_state st m i = Some Service.present ∨
  (m = target ∧ ∃ j, i = s + j ∧ services !! j = Some true).
Proof.
  induction services as [|b services IH]; intros s st st' H Hp; simplify_eq/=.
  - by left.
  - destruct (State.update_service st target s _) as [st1|] eqn:H1;
      simplify_eq/=.
    destruct (IH _ _ _ H Hp) as [Hp1|(-> & j & -> & Hj)].
    + rewrite (update_service_state _ _ _ _ _ _ _ H1) in Hp1.
      case_decide as Hd; [|by left]. destruct Hd as [-> ->]. right.
      split; [done|]. exists 0. split; [lia|]. destruct b; by simplify_eq/=.
    + right. split; [done|]. exists (S j). split; [lia|done].
Qed.

Lemma _update_state_present_sound env a u success value services st st' :
  Network.perform_action (network env) a u = Some (success, value, services) →
  _update_state env a success services st = Some st' →
  present_sound (network env) st → present_sound (network env) st'.
Proof.
  intros Hp Hu Hinv m i Hpres.
  destruct (perform_action_inv _ _ _ _ _ _ Hp) as (_ & mach & Hfind & Hcase).
  assert (∀ st1, update_services_loop (Action.target a) services 0 st = Some st1 →
                 services = Network.m_services mach →
                 State.service_state st1 m i = Some Service.present →
                 ∃ mach0, Network.find_machine (network env) m = Some mach0 ∧
                          Network.m_services mach0 !! i = Some true) as Hloop.
  { intros st1 H1 -> Hp1.
    destruct (update_services_loop_present _ _ _ _ _ _ _ H1 Hp1)
      as [?|(-> & j & -> & Hj)]; [by apply Hinv|]. by exists mach. }
  destruct (Action.type a) as [|s] eqn:Hty.
  - destruct Hcase as (-> & _ & Hs).
    rewrite _update_state_scan in Hu
      by (unfold Action.is_scan; by rewrite Hty).
    by eapply Hloop.
  - destruct Hcase as (_ & [(-> & _ & _ & Hs)|(-> & _ & _)]).
    + rewrite (_update_state_exploited _ _ s) in Hu by done.
      destruct (update_services_loop _ _ _ _) as [st1|] eqn:H1; simplify_eq/=.
      destruct (State.set_compromised st1 _) as [st2|] eqn:H2; simplify_eq/=.
      unfold _update_reachable in Hu. eapply Hloop; [done..|].
      rewrite <-Hpres. symmetry.
      etrans; [apply info_service_state;
               by eapply update_reachable_loop_info|].
      apply info_service_state. by eapply set_compromised_info.
    + rewrite (_update_state_failed _ _ s) in Hu by done.
      rewrite (update_service_state _ _ _ _ _ _ _ Hu) in Hpres.
      case_decide; [done|]. by apply Hinv.
Qed.

Lemma run_present_sound acts : ∀ env env' outs st st',
  run env acts = Some (env', outs) →
  get_state env = Some st → get_state env' = Some st' →
  present_sound (network env) st → present_sound (network env) st'.
Proof.
  induction acts as [|[a u] rest IH];
    intros env env' outs st st' Hrun Hst Hst' Hinv.
  - simpl in Hrun. injection Hrun as <- _. rewrite Hst in Hst'.
    by simplify_eq.
  - apply run_cons_inv in Hrun as (env1 & [[o r] d] & outs' & Hstep & Hrun & ->).
    destruct (step_fields _ _ _ _ _ Hstep) as (_ & Hnet & _).
    rewrite <-Hnet.
    destruct (step_inv _ _ _ _ _ _ _ _ Hstep Hst)
      as [(_ & -> & _)|(_ & success & value & services & c & st1 &
                        Hp & _ & Hu & _ & _ & Hg & _)].
    + by eapply IH.
    + eapply IH; [done..|]. rewrite Hnet.
      by eapply _update_state_present_sound.
Qed.

(** X10.  In every state of an episode a belief [present] is true: the
    machine at that address is vulnerable to that service. *)
Theorem episode_present_sound env0 env o acts env' outs st' m i :
  reset env0 = Some (env, o) →
  run env acts = Some (env', outs) →
  get_state env' = Some st' →
  State.service_state st' m i = Some Service.present →
  ∃ mach, Network.find_machine (network env0) m = Some mach ∧
          Network.m_services mach !! i = Some true.
Proof.
  intros Hreset Hrun Hst' Hpres.
  destruct (reset_state _ _ _ Hreset) as (st & Hst & _ & Hin & Hout).
  destruct (reset_inv _ _ _ Hreset) as (_ & _ & _ & _ & _ & _ & Hnet & _).
  rewrite <-Hnet.
  eapply (run_present_sound _ _ _ _ _ _ Hrun Hst Hst'); [|done].
  intros m0 i0 Hp0. unfold State.service_state in Hp0.
  destruct (decide (m0 ∈ address_space env0)) as [Hm0|Hm0].
  - destruct (Hin m0 Hm0) as (exposed & _ & Hobs). rewrite Hobs in Hp0.
    simpl in Hp0. apply lookup_replicate in Hp0 as [? _]. done.
  - by rewrite (Hout m0 Hm0) in Hp0.
Qed.
End Beliefs.

(** ** Rewards, termination and errors of a step *)
Section Outcome.
Implicit Types (st : State.t) (m : Address) (env : Env) (a : Action.t).


(** X12.  Once the current state is a goal state, the flag [done] of a
    step tells whether its target was reachable: true for a reachable
    target, false for one that is not, although the goal state stays. *)
Theorem step_done_in_goal_state env a u env' o r d st st' b :
  step env a u = Some (env', (o, r, d)) →
  get_state env = Some st → get_state env' = Some st' →
  _is_goal env st = Some true →
  State.reachable st (Action.target a) = Some b →
  d = b ∧ _is_goal env' st' = Some true.
Proof.
  intros Hstep Hst Hst' Hgoal Hb.
  destruct (step_fields _ _ _ _ _ Hstep) as (_ & Hnet & _).
  unfold _is_goal in *. rewrite Hnet.
  destruct (step_inv _ _ _ _ _ _ _ _ Hstep Hst)
    as [(Hr & -> & _ & _ & ->)|(Hr & success & value & services & c & st1 &
                                _ & _ & Hu & Hd & _ & Hg & _)].
  - rewrite Hst in Hst'. simplify_eq. split; [congruence|done].
  - rewrite Hst' in Hg. injection Hg as <-.
    assert (is_goal_loop (Network.get_sensitive_machines (network env)) st'
            = Some true) as Hgoal'.
    { eapply is_goal_loop_mono; [|done]. by eapply _update_state_le. }
    split; [|done]. unfold _is_goal in Hd. congruence.
Qed.

Lemma perform_action_valid n a u res :
  Network.perform_action n a u = Some res → valid_action n a.
Proof.
  destruct res as [[success value] services]. intros Hp.
  destruct (perform_action_inv _ _ _ _ _ _ Hp) as (Hsn & mach & Hfind & Hcase).
  split; [done|]. rewrite Hfind.
  destruct (Action.type a); [done|]. by destruct Hcase.
Qed.

Lemma step_total env a u st :
  well_formed_state env st →
  get_state env = Some st →
  State.reachable st (Action.target a) = Some true →
  valid_action (network env) a →
  is_Some (step env a u).
Proof.
  intros Hwf Hst Hr Hva.
  destruct (perform_action_total (network env) a u Hva)
    as (mach & success & value & services & Hfind & Hp & _).
  pose proof Hr as Hr'. unfold State.reachable in Hr'.
  destruct (State.obs st !! Action.target a) as [e|] eqn:He; [|done].
  destruct (_update_state_total _ _ _ _ _ _ _ _ _ Hwf Hva He Hfind Hp)
    as [st' Hu].
  destruct (is_goal_loop_total
              (Network.get_sensitive_machines (network env)) st') as [d Hd].
  { destruct Hwf as (_ & Hb & _). rewrite Forall_forall in Hb.
    intros g Hg. eapply state_le_is_Some; [by eapply _update_state_le|].
    by apply Hb. }
  destruct (copy (put_state env st') st') as [o env'] eqn:Hcopy.
  assert (State.compromised st (Action.target a)
          = Some (State.e_compromised e)) as Hc.
  { unfold State.compromised. by rewrite He. }
  rewrite (step_reachable_intro _ _ _ _ _ _ _ _ _ _ _ _
             Hst Hr Hp Hc Hu Hd Hcopy).
  by eexists.
Qed.

(** X13.  In a well-formed environment a step raises exactly when its
    target is no key of the state, or is reachable while the action is
    outside the contract of the network (no such machine or subnet, or a
    service index out of range).  An action on a target that is not
    reachable is not checked against the contract. *)
Theorem step_raises_iff env a u st :
  well_formed env →
  get_state env = Some st →
  step env a u = None ↔
  State.obs st !! Action.target a = None ∨
  (State.reachable st (Action.target a) = Some true ∧
   ¬ valid_action (network env) a).
Proof.
  intros Hwf Hst. unfold well_formed in Hwf. rewrite Hst in Hwf.
  split.
  - intros Hnone.
    destruct (State.obs st !! Action.target a) as [e|] eqn:He; [|by left].
    right.
    assert (State.reachable st (Action.target a)
            = Some (State.e_reachable e)) as Hr.
    { unfold State.reachable. by rewrite He. }
    destruct (State.e_reachable e).
    + split; [done|]. intros Hva.
      destruct (step_total env a u st Hwf Hst Hr Hva) as [res Hres].
      congruence.
    + rewrite (step_not_reachable _ _ _ _ Hst Hr) in Hnone. done.
  - intros [Hkey|[Hr Hnv]].
    + unfold step. rewrite Hst. simpl. unfold State.reachable.
      by rewrite Hkey.
    + destruct (step env a u) as [[env' [[o r] d]]|] eqn:Hstep; [|done].
      destruct (step_reachable_inv _ _ _ _ _ _ _ _ Hst Hr Hstep)
        as (success & value & services & c & st' & Hp & _).
      destruct Hnv. by eapply perform_action_valid.
Qed.
End Outcome.

(** ** Rendering *)
Section Rendering.
Implicit Types (st : State.t) (m : Address) (env : Env).

(** X14.  The symbol of a machine tells its flags: it is an upper-case
    letter exactly for a sensitive machine, [C] or [c] exactly for a
    compromised one, [R] or [r] for one that is reachable and not
    compromised, and [S] or [o] for one that is neither. *)
Theorem machine_symbol_decodes env st m symbol :
  _get_machine_symbol env st m = Some symbol →
  (is_sensitive_machine (network env) m = true ↔
   symbol = "C" ∨ symbol = "R" ∨ symbol = "S") ∧
  (State.compromised st m = Some true ↔ symbol = "C" ∨ symbol = "c") ∧
  (State.compromised st m = Some false ∧ State.reachable st m = Some true ↔
   symbol = "R" ∨ symbol = "r") ∧
  (State.compromised st m = Some false ∧ State.reachable st m = Some false ↔
   symbol = "S" ∨ symbol = "o").
Proof.
  unfold _get_machine_symbol.
  destruct (is_sensitive_machine (network env) m);
    destruct (State.compromised st m) as [[]|];
    destruct (State.reachable st m) as [[]|]; simpl; intros [= <-];
    (split_and!; split; try done; try (intros [?|[?|?]]; done);
     try (intros [?|?]; done); try (intros [? ?]; done); auto).
Qed.

Lemma machine_symbol_is_Some env st m :
  is_Some (_get_machine_symbol env st m) ↔ is_Some (State.obs st !! m).
Proof.
  unfold _get_machine_symbol, State.compromised, State.reachable.
  destruct (State.obs st !! m) as [[c r info]|]; simpl.
  - split; [by eexists|]. intros _.
    by destruct (is_sensitive_machine _ _), c, r; eexists.
  - split; [|by intros [? ?]].
    by destruct (is_sensitive_machine _ _); intros [? ?].
Qed.

Lemma asci_rows_loop_length env st ms : ∀ subnets rows,
  asci_rows_loop env st ms subnets = Some rows →
  length rows = length subnets.
Proof.
  induction ms as [|m ms IH]; intros subnets rows H; simplify_eq/=; [done|].
  destruct (subnets !! m.1) as [row|]; simplify_eq/=.
  destruct (_get_machine_symbol env st m) as [symbol|]; simplify_eq/=.
  rewrite (IH _ _ H). apply length_insert.
Qed.

Lemma asci_rows_loop_is_Some env st ms : ∀ subnets,
  is_Some (asci_rows_loop env st ms subnets) ↔
  ∀ m, m ∈ ms → m.1 < length subnets ∧ is_Some (State.obs st !! m).
Proof.
  induction ms as [|m0 ms IH]; intros subnets; simpl.
  { split; [|by eexists]. intros _ m Hm. by apply elem_of_nil in Hm. }
  split.
  - intros [rows H].
    destruct (subnets !! m0.1) as [row|] eqn:Hrow; simplify_eq/=.
    destruct (_get_machine_symbol env st m0) as [symbol|] eqn:Hsym;
      simplify_eq/=.
    assert (is_Some (asci_rows_loop env st ms
                       (<[m0.1 := row ++ [symbol]]> subnets))) as Hrest
      by by eexists.
    pose proof (proj1 (IH _) Hrest) as Hrest'.
    rewrite length_insert in Hrest'.
    intros m [->|Hm]%elem_of_cons; [|by apply Hrest'].
    split; [by eapply lookup_lt_Some|].
    apply (proj1 (machine_symbol_is_Some env st m0)). by eexists.
  - intros Hall.
    destruct (Hall m0 (list_elem_of_here _ _)) as [Hlt Hkey].
    destruct (lookup_lt_is_Some_2 _ _ Hlt) as [row ->]. simpl.
    destruct (proj2 (machine_symbol_is_Some env st m0) Hkey) as [symbol ->].
    simpl.
    apply (proj2 (IH _)). rewrite length_insert. intros m Hm. apply Hall.
    by apply elem_of_cons; right.
Qed.

(** X15.  The ASCI rendering raises exactly when some address of the
    address space lies in a subnet with an id of 3 or more, or has no entry
    in the state: it has room for three subnets only. *)
Theorem _render_asci_is_Some env st :
  is_Some (_render_asci env st) ↔
  ∀ m, m ∈ address_space env → m.1 < 3 ∧ is_Some (State.obs st !! m).
Proof.
  rewrite <-(asci_rows_loop_is_Some env st (address_space env) [[]; []; []]).
  unfold _render_asci. split.
  - intros [out H].
    destruct (asci_rows_loop _ _ _ _) as [rows|]; [by eexists|done].
  - intros [rows Hrows]. rewrite Hrows. simpl.
    pose proof (asci_rows_loop_length _ _ _ _ _ Hrows) as Hlen.
    destruct rows as [|row rows]; [done|]. simpl. by eexists.
Qed.

Lemma asci_rows_loop_rows env st i ms : ∀ subnets rows row0,
  asci_rows_loop env st ms subnets = Some rows →
  subnets !! i = Some row0 →
  ∃ symbols, rows !! i = Some (row0 ++ symbols) ∧
    Forall2 (fun m symbol => _get_machine_symbol env st m = Some symbol)
            (filter (fun m => m.1 = i) ms) symbols.
Proof.
  induction ms as [|m ms IH]; intros subnets rows row0 H Hi; simplify_eq/=.
  { exists []. rewrite app_nil_r. split; [done|]. constructor. }
  destruct (subnets !! m.1) as [row|] eqn:Hrow; simplify_eq/=.
  destruct (_get_machine_symbol env st m) as [symbol|] eqn:Hsym;
    simplify_eq/=.
  rewrite filter_cons. destruct (decide (m.1 = i)) as [<-|Hne].
  - rewrite Hrow in Hi. injection Hi as ->.
    destruct (IH _ _ (row0 ++ [symbol]) H) as (symbols & Hrows & Hall).
    { apply list_lookup_insert_eq. by eapply lookup_lt_Some. }
    exists (symbol :: symbols). rewrite <-app_assoc in Hrows.
    split; [done|]. by constructor.
  - destruct (IH _ _ row0 H) as (symbols & Hrows & Hall).
    { by rewrite list_lookup_insert_ne. }
    by exists symbols.
Qed.

(** X16.  The rows the ASCI rendering builds: there are three, and row
    [i] holds the symbols of the addresses of subnet [i], one for each, in
    the order of the address space. *)
Theorem asci_rows_by_subnet env st rows i :
  asci_rows_loop env st (address_space env) [[]; []; []] = Some rows →
  i < 3 →
  length rows = 3 ∧
  ∃ row, rows !! i = Some row ∧
    Forall2 (fun m symbol => _get_machine_symbol env st m = Some symbol)
            (filter (fun m => m.1 = i) (address_space env)) row.
Proof.
  intros Hrows Hi. split; [by apply asci_rows_loop_length in Hrows|].
  destruct (asci_rows_loop_rows env st i _ _ _ [] Hrows)
    as (symbols & Hrow & Hall).
  { by destruct i as [|[|[|]]]; [..|lia]. }
  by exists symbols.
Qed.

Lemma readable_services_loop_total st m e ss : ∀ output,
  State.obs st !! m = Some e →
  (∀ s, s ∈ ss → s < length (State.e_service_info e)) →
  is_Some (readable_services_loop st m ss output).
Proof.
  induction ss as [|s ss IH]; intros output He Hall; simpl; [by eexists|].
  unfold State.service_state at 1. rewrite He. simpl.
  destruct (lookup_lt_is_Some_2 (State.e_service_info e) s) as [v ->].
  { apply Hall, list_elem_of_here. }
  simpl. apply IH; [done|]. intros s' Hs'. apply Hall.
  by apply elem_of_cons; right.
Qed.

Lemma readable_loop_total env st ms : ∀ output,
  (∀ m, m ∈ ms → ∃ e, State.obs st !! m = Some e ∧
                      num_services env ≤ length (State.e_service_info e)) →
  is_Some (readable_loop env st ms output).
Proof.
  induction ms as [|m ms IH]; intros output Hall; simpl; [by eexists|].
  destruct (Hall m (list_elem_of_here _ _)) as (e & He & Hlen).
  destruct (readable_services_loop_total st m e (seq 0 (num_services env))
              (((output +:+ "Machine = " +:+ str_address m +:+ " =>" +:+ nl)
                +:+ tab +:+ "Services:" +:+ nl)) He) as [out1 Hout1].
  { intros s Hs%elem_of_seq. lia. }
  rewrite Hout1. simpl. unfold State.reachable, State.compromised.
  rewrite He. simpl. apply IH. intros m' Hm'. apply Hall.
  by apply elem_of_cons; right.
Qed.

(** X17.  In every state of an episode the readable rendering returns:
    it finds every address of the address space in the state, with a
    belief for each of the [num_services] services. *)
Theorem episode_render_readable env0 env o acts env' outs st' :
  reset env0 = Some (env, o) →
  run env acts = Some (env', outs) →
  get_state env' = Some st' →
  is_Some (_render_readable env' st').
Proof.
  intros Hreset Hrun Hst'.
  destruct (reset_state _ _ _ Hreset) as (st & Hst & _ & Hin & Hout).
  destruct (reset_inv _ _ _ Hreset) as (_ & _ & _ & _ & _ & Hn & _ & Hads & _).
  destruct (run_fields _ _ _ _ Hrun) as (Hn' & _ & Hads' & _).
  assert (observation_shape env' st') as Hsh.
  { eapply run_shape; [done..|]. intros m0. rewrite Hads, Hn.
    destruct (decide (m0 ∈ address_space env0)) as [Hm0|Hm0].
    - destruct (Hin m0 Hm0) as (exposed & _ & ->). split; [done|].
      apply length_replicate.
    - by rewrite (Hout m0 Hm0). }
  apply readable_loop_total. intros m Hm. specialize (Hsh m).
  destruct (State.obs st' !! m) as [e|]; [|done].
  exists e. split; [done|]. destruct Hsh as [_ ->]. done.
Qed.
End Rendering.

(** ** The oracle of the tests against [_update_state] *)
Section Oracle.
Implicit Types (st : State.t) (m : Address) (env : Env) (a : Action.t).

Lemma update_services_loop_all_present target n : ∀ s st,
  update_services_loop target (replicate n true) s st =
  EnvironmentTestCase.update_present_loop target (seq s n) st.
Proof.
  induction n as [|n IH]; intros s st; simpl; [done|].
  destruct (State.update_service st target s _) as [st1|]; simpl; [|done].
  apply IH.
Qed.

Lemma update_reachable_loop_oracle net target ms : ∀ st,
  update_reachable_loop net target.1 ms st =
  EnvironmentTestCase.reachable_loop net target ms st.
Proof.
  induction ms as [|m ms IH]; intros st; simpl; [done|].
  destruct (State.reachable st m) as [[]|]; simpl; [done| |done].
  destruct (Network.subnets_connected net target.1 m.1) as [[]|]; simpl;
    [|done..].
  destruct (State.set_reachable st m) as [st1|]; simpl; [|done]. apply IH.
Qed.

(** X18.  When every service of the target is present in the revealed
    vector ([E] services, all true), the oracle [update_obs] of the tests
    computes the state [_update_state] computes, for a scan that succeeded
    and for an exploit whatever its outcome. *)
Theorem update_obs_agrees env a success E st :
  success = true ∨ Action.is_scan a = false →
  _update_state env a success (replicate E true) st =
  EnvironmentTestCase.update_obs E (network env) (address_space env)
                                 a st success.
Proof.
  intros Hcase. unfold EnvironmentTestCase.update_obs.
  destruct (Action.type a) as [|s] eqn:Hty.
  - assert (Action.is_scan a = true) as Hscan
      by (unfold Action.is_scan; by rewrite Hty).
    destruct Hcase as [->|?]; [|congruence].
    rewrite _update_state_scan, Hscan by done. simpl.
    rewrite update_services_loop_all_present.
    by destruct (EnvironmentTestCase.update_present_loop _ _ _).
  - assert (Action.is_scan a = false) as Hscan
      by (unfold Action.is_scan; by rewrite Hty).
    rewrite Hscan. destruct success; simpl.
    + rewrite (_update_state_exploited _ _ s) by done.
      rewrite update_services_loop_all_present.
      destruct (EnvironmentTestCase.update_present_loop _ _ _) as [st1|];
        simpl; [|done].
      destruct (State.set_compromised st1 _) as [st2|]; simpl; [|done].
      apply update_reachable_loop_oracle.
    + by rewrite (_update_state_failed _ _ s).
Qed.
End Oracle.

(** ** Accounting of rewards *)
Section Accounting.
Implicit Types (st : State.t) (m : Address) (env : Env) (a : Action.t).







End Accounting.

(** ** Scanning twice *)
Section ScanTwice.
Implicit Types (st : State.t) (m : Address) (env : Env) (a : Action.t).

Lemma update_services_loop_bound target services : ∀ s st st' e,
  update_services_loop target services s st = Some st' →
  State.obs st !! target = Some e →
  services = [] ∨ s + length services ≤ length (State.e_service_info e).
Proof.
  induction services as [|b services IH]; intros s st st' e H He; [by left|].
  right. simpl in H.
  destruct (State.update_service st target s _) as [st1|] eqn:H1;
    simplify_eq/=.
  unfold State.update_service in H1. rewrite He in H1. simpl in H1.
  case_decide as Hlt; simplify_eq/=.
  destruct (IH (S s) _ _ _ H (lookup_insert_eq _ _ _)) as [->|Hle];
    simpl in *; [lia|].
  rewrite length_insert in Hle. lia.
Qed.

(** Running the loop again with the same vector changes nothing. *)
Lemma update_services_loop_twice target services st st1 st2 :
  update_services_loop target services 0 st = Some st1 →
  update_services_loop target services 0 st1 = Some st2 →
  is_Some (State.obs st !! target) →
  st2 = st1.
Proof.
  intros H1 H2 [e He].
  assert (length services ≤ length (State.e_service_info e)) as Hlen.
  { destruct (update_services_loop_bound _ _ _ _ _ _ H1 He) as [->|?];
      simpl; lia. }
  rewrite (update_services_loop_spec _ _ 0 st e He) in H1 by done.
  simpl in H1. injection H1 as <-.
  erewrite update_services_loop_spec in H2;
    [|simpl; apply lookup_insert_eq|simpl; rewrite length_app, length_fmap; lia].
  simpl in H2. injection H2 as <-.
  rewrite insert_insert_eq. do 3 f_equal.
  rewrite drop_app_length'; [done|]. by rewrite length_fmap.
Qed.

(** X20.  Scanning is idempotent: a second scan of the same target right
    after the first leaves the state as the first left it and returns the
    same reward and the same flag [done]. *)
Theorem step_scan_twice env a u u' env1 o1 r1 d1 env2 o2 r2 d2 st1 :
  Action.is_scan a = true →
  step env a u = Some (env1, (o1, r1, d1)) →
  step env1 a u' = Some (env2, (o2, r2, d2)) →
  get_state env1 = Some st1 →
  get_state env2 = Some st1 ∧ r2 = r1 ∧ d2 = d1.
Proof.
  intros Hscan Hstep1 Hstep2 Hst1.
  destruct (step_gate _ _ _ _ Hstep1) as (st & b & Hst & _).
  destruct (step_fields _ _ _ _ _ Hstep1) as (_ & Hnet & _).
  assert (Action.type a = Action.scan) as Hty.
  { unfold Action.is_scan in Hscan. by destruct (Action.type a). }
  destruct (step_inv _ _ _ _ _ _ _ _ Hstep1 Hst)
    as [(Hr & -> & _ & -> & ->)|(Hr & success & value & services & c & st1' &
                                 Hp & Hc & Hu & Hd & -> & Hg & _)].
  - rewrite Hst in Hst1. injection Hst1 as <-.
    destruct (step_inv _ _ _ _ _ _ _ _ Hstep2 Hst)
      as [(_ & -> & _ & -> & ->)|(Hr' & _)]; [done|congruence].
  - rewrite Hst1 in Hg. injection Hg as <-.
    destruct (_update_state_quiet _ _ _ _ _ _ Hu (or_introl Hscan)
                (Action.target a)) as [Hc1 Hr1].
    destruct (step_inv _ _ _ _ _ _ _ _ Hstep2 Hst1)
      as [(Hr' & _)|(_ & success2 & value2 & services2 & c2 & st2 &
                     Hp2 & Hc2 & Hu2 & Hd2 & -> & Hg2 & _)]; [congruence|].
    destruct (perform_action_inv _ _ _ _ _ _ Hp) as (_ & mach & Hfind & Hcase).
    destruct (perform_action_inv _ _ _ _ _ _ Hp2)
      as (_ & mach2 & Hfind2 & Hcase2).
    rewrite Hnet, Hfind in Hfind2. injection Hfind2 as <-.
    rewrite Hty in Hcase, Hcase2.
    destruct Hcase as (-> & -> & ->). destruct Hcase2 as (-> & -> & ->).
    rewrite _update_state_scan in Hu, Hu2 by done.
    assert (st2 = st1) as ->.
    { eapply update_services_loop_twice; [done..|].
      unfold State.reachable in Hr.
      destruct (State.obs st !! Action.target a); [by eexists|done]. }
    split_and!; [done| |].
    + by destruct c, c2.
    + unfold _is_goal in *. rewrite Hnet in Hd2. congruence.
Qed.
End ScanTwice.

(** ** The further properties on the small networks *)
Section ExtraWitnesses.

Lemma step_snapshot_immutable_witness :
  ∃ o snap,
    get_state (after env3 [(exploit3 (0, 0), 0%Q)]) = Some snap ∧
    read (after env3 [(exploit3 (0, 0), 0%Q)]) o = Some snap ∧
    read env3_goal o = Some snap.
Proof.
  epose proof (step_snapshot_immutable env3 (exploit3 (0, 0)) 0%Q
                 (after env3 [(exploit3 (0, 0), 0%Q)]) _ _ _ st3
                 [(exploit3 (1, 0), 0%Q); (exploit3 (2, 0), 0%Q)] env3_goal _)
    as Hsnap.
  edestruct Hsnap as (snap & H1 & H2 & H3); [vm_compute; reflexivity..|].
  by eexists _, snap.
Defined.

Lemma reset_snapshot_immutable_witness :
  ∃ o, is_Some (read env3 o) ∧ read env3_goal o = read env3 o.
Proof.
  assert (reset env3_pre = Some (env3, 1)) as Hreset
    by (vm_compute; reflexivity).
  exists 1. split; [vm_compute; by eexists|].
  eapply (proj2 (reset_snapshot_immutable env3_pre env3 1 Hreset) acts3).
  vm_compute. reflexivity.
Defined.

Lemma reset_after_run_witness :
  ∃ env1 o1 env2 o2 st0,
    reset env3 = Some (env1, o1) ∧ reset env3_goal = Some (env2, o2) ∧
    read env1 o1 = Some st0 ∧ read env2 o2 = Some st0.
Proof.
  destruct (reset env3) as [[env1 o1]|] eqn:Hreset;
    [|by vm_compute in Hreset].
  epose proof (reset_after_run env3 acts3 env3_goal _ env1 o1) as Hagain.
  edestruct Hagain as (env2 & o2 & st0 & H1 & H2 & H3 & _);
    [vm_compute; reflexivity|exact Hreset|].
  by exists env1, o1, env2, o2, st0.
Defined.

Lemma step_other_addresses_witness :
  State.compromised (state_of (after env3 [(exploit3 (0, 0), 0%Q)])) (1, 0)
  = State.compromised st3 (1, 0).
Proof.
  eapply (step_other_addresses env3 (exploit3 (0, 0)) 0%Q
            (after env3 [(exploit3 (0, 0), 0%Q)]) _ _ _ st3
            (state_of (after env3 [(exploit3 (0, 0), 0%Q)])) (1, 0));
    [vm_compute; reflexivity..|discriminate].
Defined.

Lemma step_scan_keeps_flags_witness :
  State.reachable (state_of (after env3 [(Example3.scan (0, 0), 0%Q)])) (1, 0)
  = State.reachable st3 (1, 0).
Proof.
  eapply (step_scan_keeps_flags env3 (Example3.scan (0, 0)) 0%Q
            (after env3 [(Example3.scan (0, 0), 0%Q)]) _ _ _ st3
            (state_of (after env3 [(Example3.scan (0, 0), 0%Q)])));
    [vm_compute; reflexivity..|reflexivity].
Defined.

Lemma episode_compromised_reachable_witness :
  State.compromised st3_goal (1, 0) = Some true ∧
  State.reachable st3_goal (1, 0) = Some true.
Proof.
  split; [vm_compute; reflexivity|].
  eapply (episode_compromised_reachable env3_pre env3 _ acts3 env3_goal _
            st3_goal (1, 0)); vm_compute; reflexivity.
Defined.

Lemma episode_reachable_iff_witness :
  State.reachable (state_of (after env3 [(exploit3 (0, 0), 0%Q)])) (1, 0)
    = Some true ↔
  Network.subnet_exposed (network env3_pre) 1 = Some true ∨
  ∃ c, State.compromised (state_of (after env3 [(exploit3 (0, 0), 0%Q)])) c
         = Some true ∧
       Network.subnets_connected (network env3_pre) c.1 1 = Some true.
Proof.
  eapply (episode_reachable_iff env3_pre env3 _ [(exploit3 (0, 0), 0%Q)]
            (after env3 [(exploit3 (0, 0), 0%Q)]) _ _ (1, 0));
    [vm_compute; reflexivity..|].
  apply (bool_decide_unpack _). vm_compute. exact I.
Defined.

Lemma episode_observation_shape_witness :
  ∃ e, State.obs st3_goal !! (1, 0) = Some e ∧
       length (State.e_service_info e) = 1.
Proof.
  epose proof (episode_observation_shape env3_pre env3 1 acts3 env3_goal
                _ st3_goal (1, 0)) as Hshape.
  destruct (State.obs st3_goal !! (1, 0)) as [e|] eqn:He;
    [|by vm_compute in He].
  exists e. split; [done|]. eapply Hshape; vm_compute; reflexivity.
Defined.

Lemma belief_never_forgotten_witness :
  ∃ v', State.service_state
          (state_of (after (after env3 [(Example3.scan (0, 0), 0%Q)]) acts3))
          (0, 0) 0 = Some v' ∧ v' ≠ Service.unknown.
Proof.
  eapply (belief_never_forgotten
            (after env3 [(Example3.scan (0, 0), 0%Q)]) acts3
            (after (after env3 [(Example3.scan (0, 0), 0%Q)]) acts3) _
            (state_of (after env3 [(Example3.scan (0, 0), 0%Q)])) _
            (0, 0) 0 Service.present);
    [vm_compute; reflexivity..|discriminate].
Defined.

Lemma episode_present_sound_witness :
  State.service_state st3_goal (1, 0) 0 = Some Service.present ∧
  ∃ mach, Network.find_machine (network env3_pre) (1, 0) = Some mach ∧
          Network.m_services mach !! 0 = Some true.
Proof.
  split; [vm_compute; reflexivity|].
  eapply (episode_present_sound env3_pre env3 _ acts3 env3_goal _ st3_goal);
    vm_compute; reflexivity.
Defined.


Lemma step_done_in_goal_state_witness :
  ∃ o r d,
    step env4_goal (Example4.scan (3, 0)) 0 = Some (env4_goal, (o, r, d)) ∧
    d = false ∧ _is_goal env4_goal st4_goal = Some true.
Proof.
  do 3 eexists. split; [vm_compute; reflexivity|].
  eapply (step_done_in_goal_state env4_goal (Example4.scan (3, 0)) 0%Q
            env4_goal _ _ _ st4_goal st4_goal false);
    vm_compute; reflexivity.
Defined.

Lemma step_raises_iff_witness :
  step env3 (Example3.exploit (0, 0) 5 1) 0 = None.
Proof.
  apply (proj2 (step_raises_iff env3 (Example3.exploit (0, 0) 5 1) 0%Q st3
                  env3_well_formed env3_state)).
  right. split; [vm_compute; reflexivity|].
  apply (bool_decide_unpack _). vm_compute. exact I.
Defined.

Lemma machine_symbol_decodes_witness :
  is_sensitive_machine (network env3_goal) (1, 0) = true ∧
  State.compromised st3_goal (1, 0) = Some true.
Proof.
  destruct (machine_symbol_decodes env3_goal st3_goal (1, 0) "C")
    as (Hsens & Hcomp & _); [vm_compute; reflexivity|].
  split; [apply Hsens|apply Hcomp]; by left.
Defined.

Lemma asci_rows_by_subnet_witness :
  ∃ rows,
    asci_rows_loop env3 st3 (address_space env3) [[]; []; []] = Some rows ∧
    length rows = 3 ∧
    ∃ row, rows !! 1 = Some row ∧
      Forall2 (fun m symbol => _get_machine_symbol env3 st3 m = Some symbol)
              (filter (fun m => m.1 = 1) (address_space env3)) row.
Proof.
  eexists. split; [vm_compute; reflexivity|].
  eapply (asci_rows_by_subnet env3 st3 _ 1); [vm_compute; reflexivity|lia].
Defined.

Lemma episode_render_readable_witness :
  is_Some (_render_readable env3_goal st3_goal).
Proof.
  eapply (episode_render_readable env3_pre env3 _ acts3 env3_goal _ st3_goal);
    vm_compute; reflexivity.
Defined.

Lemma update_obs_agrees_witness :
  _update_state env3 (exploit3 (0, 0)) true (replicate 1 true) st3 =
  EnvironmentTestCase.update_obs 1 (network env3) (address_space env3)
                                 (exploit3 (0, 0)) st3 true.
Proof. apply update_obs_agrees. by left. Defined.


Lemma step_scan_twice_witness :
  get_state (after env3 [(Example3.scan (0, 0), 0%Q);
                         (Example3.scan (0, 0), 0%Q)])
  = Some (state_of (after env3 [(Example3.scan (0, 0), 0%Q)])).
Proof.
  eapply (step_scan_twice env3 (Example3.scan (0, 0)) 0%Q 0%Q
            (after env3 [(Example3.scan (0, 0), 0%Q)]) _ _ _
            (after env3 [(Example3.scan (0, 0), 0%Q);
                         (Example3.scan (0, 0), 0%Q)]) _ _ _
            (state_of (after env3 [(Example3.scan (0, 0), 0%Q)])));
    [reflexivity|vm_compute; reflexivity..].
Defined.

Lemma init_well_formed_witness :
  ∃ env, init 1 Example3.net = Some env ∧ well_formed env.
Proof.
  destruct (init_well_formed 1 Example3.net) as (env & Hinit & Hwf & _).
  - unfold well_formed_network. apply (bool_decide_unpack _).
    vm_compute. exact I.
  - by exists env.
Defined.

Lemma run_well_formed_witness : well_formed env3_goal.
Proof.
  eapply (run_well_formed acts3 env3 env3_goal).
  - apply (bool_decide_unpack _). vm_compute. exact I.
  - vm_compute. reflexivity.
Defined.
Lemma _render_asci_is_Some_witness :
  is_Some (_render_asci env3 st3) ∧ ¬ is_Some (_render_asci env4 st4).
Proof.
  split.
  - apply (proj2 (_render_asci_is_Some env3 st3)).
    apply Forall_forall. apply (bool_decide_unpack _). vm_compute. exact I.
  - intros Hsome.
    destruct (proj1 (_render_asci_is_Some env4 st4) Hsome (3, 0)) as [Hlt _].
    + apply (bool_decide_unpack _). vm_compute. exact I.
    + simpl in Hlt. lia.
Defined.
End ExtraWitnesses.
